(** * Verification of the sitter_tree_mcp sample translation units

    The repository ships four C++ sample files under [test_samples/] and no
    parser.  This development embeds the text of the samples verbatim, reads
    their declaration structure with a small lexer and outline scanner, and
    embeds the functions the samples define ([factorial], [Calculator],
    [LinkedList], [max], [Array], and the arithmetic of [math] and
    [geometry]) as Rocq functions.  The samples are fixtures for a parsing
    engine that the repository does not contain; its AST model and its
    resolver pass are modelled after its specification. *)

From Stdlib Require Import ZArith List String Ascii Bool Lia Floats.
From stdpp Require Import gmap strings list fin_maps.

Local Open Scope string_scope.
Local Open Scope list_scope.

#[global] Set Warnings "-register-all".

(** ** Text helpers *)
Module Text.

(** The double-quote character, as a one-character string. *)
Definition dq : string := String (ascii_of_nat 34) EmptyString.

(** The line-feed character. *)
Definition nl_char : ascii := ascii_of_nat 10.

(** Concatenation of a list of text fragments. *)
Definition cat (parts : list string) : string :=
  fold_right String.append EmptyString parts.

(** [text_of ls last]: every line of [ls] followed by a line feed, then the
    unterminated remainder [last] (empty when the file ends in a line feed). *)
Definition text_of (ls : list string) (last : string) : string :=
  fold_right (fun l acc => String.append l (String nl_char acc)) last ls.

(** Number of lines of a text: the number of line feeds, plus one when the
    text is non-empty and does not end in a line feed. *)
Fixpoint count_lines_from (pending : bool) (s : string) : nat :=
  match s with
  | EmptyString => if pending then 1 else 0
  | String c rest =>
      if Ascii.eqb c nl_char then S (count_lines_from false rest)
      else count_lines_from true rest
  end.

Definition count_lines (s : string) : nat := count_lines_from false s.

Definition is_empty (s : string) : bool :=
  match s with EmptyString => true | String _ _ => false end.

(** Number of line feeds of a text. *)
Fixpoint count_newlines (s : string) : nat :=
  match s with
  | EmptyString => 0
  | String c rest =>
      (if Ascii.eqb c nl_char then 1 else 0) + count_newlines rest
  end.

End Text.

(** ** The sample files, verbatim *)
Module Samples.
Import Text.

(** [basic_example.cpp], 642 bytes. *)
Definition basic_example_cpp_lines : list string :=
  [ "// example.cpp"
  ; "// 这是一个用于测试语法树解析功能的示例C++文件"
  ; ""
  ; "int factorial(int n) {"
  ; "    if (n <= 1) {"
  ; "        return 1;"
  ; "    }"
  ; "    return n * factorial(n - 1);"
  ; "}"
  ; ""
  ; "// 定义一个简单的类"
  ; "class Calculator {"
  ; "public:"
  ; "    Calculator() : value(0) {}"
  ; "    "
  ; "    // 计算阶乘并存储结果"
  ; "    void computeFactorial(int n) {"
  ; "        value = factorial(n);"
  ; "    }"
  ; "    "
  ; "    // 获取计算结果"
  ; "    int getValue() const {"
  ; "        return value;"
  ; "    }"
  ; "    "
  ; "private:"
  ; "    int value; // 存储计算结果"
  ; "};"
  ; ""
  ; "// 主函数"
  ; "int main() {"
  ; "    Calculator calc;"
  ; "    calc.computeFactorial<Calculator>(5);"
  ; "    return calc.getValue();"
  ; "}"
  ; "" ].

Definition basic_example_cpp : string := text_of basic_example_cpp_lines "".

(** [data_structures.cpp], 2196 bytes. *)
Definition data_structures_cpp_lines : list string :=
  [ "// data_structures.cpp"
  ; "// 数据结构实现示例"
  ; ""
  ; "#include <iostream>"
  ; "#include <memory>"
  ; ""
  ; "struct Node_base {};"
  ; ""
  ; "// 简单链表节点定义"
  ; "template<typename T>"
  ; "struct Node "
  ; ": Node_base {"
  ; "    T data;"
  ; "    std::shared_ptr<Node<T>> next;"
  ; "    "
  ; "    Node(T value) : data(value), next(nullptr) {}"
  ; ""
  ; "    void print() const {"
  ; cat ["        std::cout << data << "; dq; " -> "; dq; " << (next ? next->data : "; dq; "nullptr"; dq; ") << std::endl;"]
  ; "    }"
  ; "};"
  ; ""
  ; "// 链表类实现"
  ; "template<typename T>"
  ; "class LinkedList {"
  ; "private:"
  ; "    std::shared_ptr<Node<T>> head;      // 链表头指针"
  ; "    size_t size;"
  ; "    "
  ; "public:"
  ; "    LinkedList() : head(nullptr), size(0) {}"
  ; "    "
  ; "    // 添加元素到链表头部"
  ; "    void push_front(T value) {"
  ; "        auto new_node = std::make_shared<Node<T>>(value);"
  ; "        new_node->next = head;"
  ; "        head = new_node;"
  ; "        size++;"
  ; "    }"
  ; "    "
  ; "    // 添加元素到链表尾部"
  ; "    void push_back(T value) {"
  ; "        auto new_node = std::make_shared<Node<T>>(value);"
  ; "        "
  ; "        if (!head) {"
  ; "            head = new_node;"
  ; "        } else {"
  ; "            auto current = head;"
  ; "            while (current->next) {"
  ; "                current = current->next;"
  ; "            }"
  ; "            current->next = new_node;"
  ; "        }"
  ; "        size++;"
  ; "    }"
  ; "    "
  ; "    // 移除链表头部元素"
  ; "    void pop_front() {"
  ; "        if (head) {"
  ; "            head = head->next;"
  ; "            size--;"
  ; "        }"
  ; "    }"
  ; "    "
  ; "    // 获取链表大小"
  ; "    size_t get_size() const {"
  ; "        return size;"
  ; "    }"
  ; "    "
  ; "    // 打印链表内容"
  ; "    void print() const {"
  ; "        auto current = head;"
  ; "        while (current) {"
  ; cat ["            std::cout << current->data << "; dq; " -> "; dq; ";"]
  ; "            current = current->next;"
  ; "        }"
  ; cat ["        std::cout << "; dq; "nullptr"; dq; " << std::endl;"]
  ; "    }"
  ; "};"
  ; ""
  ; "// 测试链表"
  ; "int main() {"
  ; "    LinkedList<int> list;"
  ; "    "
  ; "    // 添加元素"
  ; "    list.push_back(1);"
  ; "    list.push_back(2);"
  ; "    list.push_back(3);"
  ; "    list.push_front(0);"
  ; "    "
  ; "    // 打印链表"
  ; cat ["    std::cout << "; dq; "List size: "; dq; " << list.get_size() << std::endl;"]
  ; "    list.print();"
  ; "    "
  ; "    // 移除头部元素"
  ; "    list.pop_front();"
  ; "    "
  ; "    // 再次打印"
  ; cat ["    std::cout << "; dq; "After pop_front, list size: "; dq; " << list.get_size() << std::endl;"]
  ; "    list.print();"
  ; "    "
  ; "    return 0;"
  ; "}"
  ; "" ].

Definition data_structures_cpp : string := text_of data_structures_cpp_lines "".

(** [namespaces.cpp], 2067 bytes. *)
Definition namespaces_cpp_lines : list string :=
  [ "// namespaces.cpp"
  ; "// C++ 命名空间和作用域示例"
  ; ""
  ; "#include <iostream>"
  ; "#include <string>"
  ; ""
  ; "// 定义命名空间"
  ; "namespace math {"
  ; "    const double PI = 3.14159265358979323846;"
  ; "    "
  ; "    double square(double x) {"
  ; "        return x * x;"
  ; "    }"
  ; "    "
  ; "    double cube(double x) {"
  ; "        return x * x * x;"
  ; "    }"
  ; "    "
  ; "    // 嵌套命名空间"
  ; "    namespace geometry {"
  ; "        struct Point {"
  ; "            double x, y;"
  ; "            "
  ; "            Point(double x_val = 0, double y_val = 0) : x(x_val), y(y_val) {}"
  ; "            "
  ; "            double distance(const Point& other) const {"
  ; "                return std::sqrt(square(x - other.x) + square(y - other.y));"
  ; "            }"
  ; "        };"
  ; "        "
  ; "        struct Circle {"
  ; "            Point center;"
  ; "            double radius;"
  ; "            "
  ; "            Circle(const Point& c, double r) : center(c), radius(r) {}"
  ; "            "
  ; "            double area() const {"
  ; "                return PI * square(radius);"
  ; "            }"
  ; "            "
  ; "            double circumference() const {"
  ; "                return 2 * PI * radius;"
  ; "            }"
  ; "        };"
  ; "    }"
  ; "}"
  ; ""
  ; "// 另一个命名空间"
  ; "namespace utils {"
  ; "    void print_separator() {"
  ; cat ["        std::cout << "; dq; "------------------------------"; dq; " << std::endl;"]
  ; "    }"
  ; "    "
  ; "    template<typename T>"
  ; "    void print_value(const std::string& name, const T& value) {"
  ; cat ["        std::cout << name << "; dq; " = "; dq; " << value << std::endl;"]
  ; "    }"
  ; "}"
  ; ""
  ; "// 使用命名空间别名"
  ; "namespace geo = math::geometry;"
  ; ""
  ; "int main() {"
  ; "    // 使用math命名空间"
  ; "    double val = 3.0;"
  ; cat ["    std::cout << "; dq; "Square of "; dq; " << val << "; dq; " = "; dq; " << math::square(val) << std::endl;"]
  ; cat ["    std::cout << "; dq; "Cube of "; dq; " << val << "; dq; " = "; dq; " << math::cube(val) << std::endl;"]
  ; "    "
  ; "    utils::print_separator();"
  ; "    "
  ; "    // 使用几何命名空间"
  ; "    geo::Point p1(3, 4);"
  ; "    geo::Point p2(6, 8);"
  ; "    "
  ; cat ["    utils::print_value("; dq; "Distance between points"; dq; ", p1.distance(p2));"]
  ; "    "
  ; "    // 创建圆"
  ; "    geo::Circle circle(p1, 5);"
  ; cat ["    utils::print_value("; dq; "Circle area"; dq; ", circle.area());"]
  ; cat ["    utils::print_value("; dq; "Circle circumference"; dq; ", circle.circumference());"]
  ; "    "
  ; "    return 0;"
  ; "}"
  ; "" ].

Definition namespaces_cpp : string := text_of namespaces_cpp_lines "".

(** [templates.cpp], 2296 bytes. *)
Definition templates_cpp_lines : list string :=
  [ "// templates.cpp"
  ; "// C++ 模板示例"
  ; ""
  ; "#include <iostream>"
  ; "#include <vector>"
  ; "#include <string>"
  ; ""
  ; "// 基本函数模板"
  ; "template<typename T>"
  ; "T max(T a, T b) {"
  ; "    return (a > b) ? a : b;"
  ; "}"
  ; ""
  ; "// 类模板"
  ; "template<typename T, int Size>"
  ; "class Array {"
  ; "private:"
  ; "    T data[Size];"
  ; "    "
  ; "public:"
  ; "    Array() {"
  ; "        for (int i = 0; i < Size; i++) {"
  ; "            data[i] = T();"
  ; "        }"
  ; "    }"
  ; "    "
  ; "    T& operator[](int index) {"
  ; "        if (index < 0 || index >= Size) {"
  ; cat ["            throw std::out_of_range("; dq; "Index out of range"; dq; ");"]
  ; "        }"
  ; "        return data[index];"
  ; "    }"
  ; "    "
  ; "    int size() const {"
  ; "        return Size;"
  ; "    }"
  ; "};"
  ; ""
  ; "// 模板特化"
  ; "template<>"
  ; "class Array<bool, 8> {"
  ; "private:"
  ; "    unsigned char data;"
  ; "    "
  ; "public:"
  ; "    Array() : data(0) {}"
  ; "    "
  ; "    bool operator[](int index) {"
  ; "        if (index < 0 || index >= 8) {"
  ; cat ["            throw std::out_of_range("; dq; "Index out of range"; dq; ");"]
  ; "        }"
  ; "        return (data & (1 << index)) != 0;"
  ; "    }"
  ; "    "
  ; "    void set(int index, bool value) {"
  ; "        if (index < 0 || index >= 8) {"
  ; cat ["            throw std::out_of_range("; dq; "Index out of range"; dq; ");"]
  ; "        }"
  ; "        "
  ; "        if (value) {"
  ; "            data |= (1 << index);"
  ; "        } else {"
  ; "            data &= ~(1 << index);"
  ; "        }"
  ; "    }"
  ; "    "
  ; "    int size() const {"
  ; "        return 8;"
  ; "    }"
  ; "};"
  ; ""
  ; "// 变参模板"
  ; "template<typename... Args>"
  ; "void print(Args... args) {"
  ; "    (std::cout << ... << args) << std::endl;"
  ; "}"
  ; ""
  ; "int main() {"
  ; "    // 使用函数模板"
  ; cat ["    std::cout << "; dq; "Max of 10 and 20: "; dq; " << max(10, 20) << std::endl;"]
  ; cat ["    std::cout << "; dq; "Max of 3.14 and 2.71: "; dq; " << max(3.14, 2.71) << std::endl;"]
  ; cat ["    std::cout << "; dq; "Max of 'a' and 'z': "; dq; " << max('a', 'z') << std::endl;"]
  ; "    "
  ; "    // 使用类模板"
  ; "    Array<int, 5> intArray;"
  ; "    intArray[0] = 10;"
  ; "    intArray[1] = 20;"
  ; "    "
  ; cat ["    std::cout << "; dq; "intArray[0] = "; dq; " << intArray[0] << std::endl;"]
  ; cat ["    std::cout << "; dq; "intArray[1] = "; dq; " << intArray[1] << std::endl;"]
  ; "    "
  ; "    // 使用特化的模板"
  ; "    Array<bool, 8> boolArray;"
  ; "    boolArray.set(0, true);"
  ; "    boolArray.set(3, true);"
  ; "    "
  ; cat ["    std::cout << "; dq; "boolArray[0] = "; dq; " << boolArray[0] << std::endl;"]
  ; cat ["    std::cout << "; dq; "boolArray[1] = "; dq; " << boolArray[1] << std::endl;"]
  ; cat ["    std::cout << "; dq; "boolArray[3] = "; dq; " << boolArray[3] << std::endl;"]
  ; "    "
  ; "    // 使用变参模板"
  ; cat ["    print("; dq; "Hello"; dq; ", "; dq; ", "; dq; ", "; dq; "world"; dq; ", "; dq; "! "; dq; ", 123);"]
  ; "    "
  ; "    return 0;" ].

Definition templates_cpp : string := text_of templates_cpp_lines "}".
(** The four samples, by file name. *)
Definition samples : list (string * string) :=
  [ ("basic_example.cpp", basic_example_cpp);
    ("data_structures.cpp", data_structures_cpp);
    ("namespaces.cpp", namespaces_cpp);
    ("templates.cpp", templates_cpp) ].

End Samples.

(** ** Tokens

    The samples are C++ text.  To speak of their declarations the text is
    split into tokens: identifiers, keywords, numeric, string and
    character literals, and punctuators with the longest match first;
    blanks and comments are skipped.  Every token carries the line it
    starts on. *)
Module Lex.
Import Text.

Inductive token_kind : Type :=
| Identifier
| Keyword
| NumericLiteral
| StringLiteral
| CharLiteral
| Punctuator.

Record token : Type := Token
  { kind : token_kind;
    text : string;
    line : nat }.

Definition token_kind_eqb (a b : token_kind) : bool :=
  match a, b with
  | Identifier, Identifier | Keyword, Keyword
  | NumericLiteral, NumericLiteral | StringLiteral, StringLiteral
  | CharLiteral, CharLiteral | Punctuator, Punctuator => true
  | _, _ => false
  end.

Definition keywords : list string :=
  [ "auto"; "bool"; "char"; "class"; "const"; "double"; "else"; "false";
    "for"; "if"; "int"; "namespace"; "nullptr"; "operator"; "private";
    "protected"; "public"; "return"; "struct"; "template"; "throw"; "true";
    "typename"; "unsigned"; "using"; "void"; "while" ].

Definition punctuators : list string :=
  [ "{"; "}"; "("; ")"; "["; "]"; ";"; ":"; "::"; ","; "."; "..."; "->";
    "<"; ">"; "<="; ">="; "=="; "!="; "<<"; ">>"; "<<="; ">>=";
    "+"; "-"; "*"; "/"; "%"; "++"; "--"; "="; "+="; "-="; "*="; "/="; "%=";
    "&"; "|"; "^"; "~"; "!"; "&&"; "||"; "&="; "|="; "^="; "?"; "#" ].

Definition mem_string (s : string) (l : list string) : bool :=
  existsb (String.eqb s) l.

(** A punctuator under construction may pass through [..] on its way to
    [...]; every other prefix of a punctuator is a punctuator. *)
Definition punct_prefix (s : string) : bool :=
  mem_string s punctuators || String.eqb s "..".

Definition in_range (lo hi : nat) (c : ascii) : bool :=
  (lo <=? nat_of_ascii c)%nat && (nat_of_ascii c <=? hi)%nat.

Definition is_digit (c : ascii) : bool := in_range 48 57 c.
Definition is_alpha (c : ascii) : bool :=
  in_range 65 90 c || in_range 97 122 c || Ascii.eqb c "_"%char.
Definition is_alnum (c : ascii) : bool := is_alpha c || is_digit c.
Definition is_blank (c : ascii) : bool :=
  Ascii.eqb c " "%char || Ascii.eqb c nl_char
  || (nat_of_ascii c =? 9)%nat || (nat_of_ascii c =? 13)%nat.

Definition snoc (s : string) (c : ascii) : string :=
  String.append s (String c EmptyString).

(** The modes of the scanner. *)
Inductive mode : Type :=
| Normal
| InWord (acc : string)
| InNumber (acc : string)
| InPunct (acc : string)
| InLineComment
| InBlockComment (star : bool)
| InString (acc : string) (escaped : bool)
| InChar (acc : string) (escaped : bool).

Definition word_token (acc : string) (ln : nat) : token :=
  Token (if mem_string acc keywords then Keyword else Identifier) acc ln.

(** A pending punctuator is emitted whole when it is one, and character by
    character otherwise. *)
Fixpoint single_puncts (s : string) (ln : nat) : list token :=
  match s with
  | EmptyString => []
  | String c rest => Token Punctuator (String c EmptyString) ln :: single_puncts rest ln
  end.

Definition punct_tokens (acc : string) (ln : nat) : list token :=
  if mem_string acc punctuators then [Token Punctuator acc ln]
  else single_puncts acc ln.

(** The mode a character opens when no token is pending. *)
Definition start (c : ascii) : mode :=
  if is_blank c then Normal
  else if is_alpha c then InWord (String c EmptyString)
  else if is_digit c then InNumber (String c EmptyString)
  else if (nat_of_ascii c =? 34)%nat then InString EmptyString false
  else if (nat_of_ascii c =? 39)%nat then InChar EmptyString false
  else InPunct (String c EmptyString).

(** One character: the tokens completed by it (all started on line [from])
    and the next mode, with [true] when the character opens that mode. *)
Definition feed (m : mode) (from : nat) (c : ascii) : list token * mode * bool :=
  match m with
  | Normal => ([], start c, true)
  | InWord acc =>
      if is_alnum c then ([], InWord (snoc acc c), false)
      else ([word_token acc from], start c, true)
  | InNumber acc =>
      if is_alnum c || Ascii.eqb c "."%char then ([], InNumber (snoc acc c), false)
      else ([Token NumericLiteral acc from], start c, true)
  | InPunct acc =>
      if String.eqb acc "/" && Ascii.eqb c "/"%char then ([], InLineComment, false)
      else if String.eqb acc "/" && Ascii.eqb c "*"%char then ([], InBlockComment false, false)
      else if punct_prefix (snoc acc c) then ([], InPunct (snoc acc c), false)
      else (punct_tokens acc from, start c, true)
  | InLineComment =>
      if Ascii.eqb c nl_char then ([], Normal, false) else ([], InLineComment, false)
  | InBlockComment star =>
      if star && Ascii.eqb c "/"%char then ([], Normal, false)
      else ([], InBlockComment (Ascii.eqb c "*"%char), false)
  | InString acc escaped =>
      if escaped then ([], InString (snoc acc c) false, false)
      else if (nat_of_ascii c =? 92)%nat then ([], InString (snoc acc c) true, false)
      else if (nat_of_ascii c =? 34)%nat then ([Token StringLiteral acc from], Normal, false)
      else ([], InString (snoc acc c) false, false)
  | InChar acc escaped =>
      if escaped then ([], InChar (snoc acc c) false, false)
      else if (nat_of_ascii c =? 92)%nat then ([], InChar (snoc acc c) true, false)
      else if (nat_of_ascii c =? 39)%nat then ([Token CharLiteral acc from], Normal, false)
      else ([], InChar (snoc acc c) false, false)
  end.

(** What is still pending when the text ends. *)
Definition finish (m : mode) (from : nat) : list token :=
  match m with
  | InWord acc => [word_token acc from]
  | InNumber acc => [Token NumericLiteral acc from]
  | InPunct acc => punct_tokens acc from
  | _ => []
  end.

(** [scan m from ln s]: the tokens of [s], read from mode [m] whose pending
    token started on line [from], the next character being on line [ln]. *)
Fixpoint scan (m : mode) (from ln : nat) (s : string) : list token :=
  match s with
  | EmptyString => finish m from
  | String c rest =>
      let '(done_, m', opened) := feed m from c in
      let ln' := if Ascii.eqb c nl_char then S ln else ln in
      done_ ++ scan m' (if opened then ln else from) ln' rest
  end.

Definition lex (s : string) : list token := scan Normal 1 1 s.

Definition texts (ts : list token) : list string := map text ts.

End Lex.

(** ** Declaration outline

    A declaration-level reading of a token stream: namespaces, namespace
    aliases, class heads with their template header and specialization
    arguments, access specifiers, member and namespace-scope variables, and
    function definitions with their bodies kept as tokens.  Each item
    records the line it starts on and the scope path that encloses it. *)
Module Outline.
Import Lex.

Definition is_punct (p : string) (t : token) : bool :=
  token_kind_eqb (kind t) Punctuator && String.eqb (text t) p.

Definition is_keyword (k : string) (t : token) : bool :=
  token_kind_eqb (kind t) Keyword && String.eqb (text t) k.

Definition is_ident (t : token) : bool := token_kind_eqb (kind t) Identifier.

(** [split_close op cl depth ts]: the tokens before the [cl] that closes the
    bracket already open (with [depth] more open inside it), and the tokens
    after that [cl]. *)
Fixpoint split_close (op cl : string) (depth : nat) (ts : list token)
  : list token * list token :=
  match ts with
  | [] => ([], [])
  | t :: ts' =>
      if is_punct cl t then
        match depth with
        | O => ([], ts')
        | S d => let '(a, b) := split_close op cl d ts' in (t :: a, b)
        end
      else
        let '(a, b) :=
          split_close op cl (if is_punct op t then S depth else depth) ts' in
        (t :: a, b)
  end.

(** The same for angle brackets, where one [>>] token closes two levels: it
    is re-split into two [>] when it closes the list itself. *)
Fixpoint split_angle (depth : nat) (ts : list token) : list token * list token :=
  match ts with
  | [] => ([], [])
  | t :: ts' =>
      if is_punct ">" t then
        match depth with
        | O => ([], ts')
        | S d => let '(a, b) := split_angle d ts' in (t :: a, b)
        end
      else if is_punct ">>" t then
        match depth with
        | O => ([], Token Punctuator ">" (line t) :: ts')
        | S O => ([Token Punctuator ">" (line t)], ts')
        | S (S d) => let '(a, b) := split_angle d ts' in (t :: a, b)
        end
      else
        let '(a, b) :=
          split_angle (if is_punct "<" t then S depth else depth) ts' in
        (t :: a, b)
  end.

(** Nesting depth after a token, for splitting at top-level commas. *)
Definition depth_after (depth : nat) (t : token) : nat :=
  if is_punct "(" t || is_punct "[" t || is_punct "<" t then S depth
  else if is_punct ")" t || is_punct "]" t || is_punct ">" t then pred depth
  else if is_punct ">>" t then pred (pred depth)
  else depth.

Fixpoint split_commas_from (depth : nat) (cur : list token) (ts : list token)
  : list (list token) :=
  match ts with
  | [] => match cur with [] => [] | _ => [rev cur] end
  | t :: ts' =>
      if (depth =? 0)%nat && is_punct "," t
      then rev cur :: split_commas_from depth [] ts'
      else split_commas_from (depth_after depth t) (t :: cur) ts'
  end.

Definition split_commas (ts : list token) : list (list token) :=
  split_commas_from 0 [] ts.

(** [split_header depth ts]: the tokens before the first [;] or [{] outside
    parentheses, that terminator, and the tokens after it. *)
Fixpoint split_header (depth : nat) (ts : list token)
  : list token * option token * list token :=
  match ts with
  | [] => ([], None, [])
  | t :: ts' =>
      if (depth =? 0)%nat && (is_punct ";" t || is_punct "{" t)
      then ([], Some t, ts')
      else
        let d := if is_punct "(" t then S depth
                 else if is_punct ")" t then pred depth else depth in
        let '(h, term, r) := split_header d ts' in (t :: h, term, r)
  end.

(** [split_paren ts]: the tokens before the first [(], with [Some] of the
    tokens inside it and the tokens after its [)], when there is one. *)
Fixpoint split_paren (ts : list token)
  : list token * option (list token * list token) :=
  match ts with
  | [] => ([], None)
  | t :: ts' =>
      if is_punct "(" t then ([], Some (split_close "(" ")" 0 ts'))
      else let '(b, r) := split_paren ts' in (t :: b, r)
  end.

Fixpoint drop_line (ln : nat) (ts : list token) : list token :=
  match ts with
  | [] => []
  | t :: ts' => if (line t =? ln)%nat then drop_line ln ts' else ts
  end.

(** *** Items of the outline *)

Inductive template_param : Type :=
| TypeParam (name : string) (pack : bool)
| NonTypeParam (type_ : list string) (name : string)
| OtherParam (tokens : list string).

Definition parse_template_param (ts : list token) : template_param :=
  match ts with
  | [k; n] =>
      if is_keyword "typename" k || is_keyword "class" k
      then TypeParam (text n) false
      else NonTypeParam [text k] (text n)
  | [k; d; n] =>
      if (is_keyword "typename" k || is_keyword "class" k) && is_punct "..." d
      then TypeParam (text n) true
      else NonTypeParam [text k; text d] (text n)
  | _ => OtherParam (texts ts)
  end.

Definition is_pack (p : template_param) : bool :=
  match p with TypeParam _ true => true | _ => false end.

Inductive scope_kind : Type := NamespaceScope | ClassScope.

Record scope_entry : Type := Scope { s_kind : scope_kind; s_name : string }.

(** The scope path of a stack of open scopes (innermost first). *)
Definition path_of (stack : list scope_entry) : list string :=
  rev (map s_name stack).

Definition in_class (stack : list scope_entry) : bool :=
  match stack with
  | Scope ClassScope _ :: _ => true
  | _ => false
  end.

Record class_decl : Type := MkClass
  { c_line : nat;
    c_scope : list string;
    c_key : string;
    c_name : string;
    c_template : option (list template_param);
    c_specialization_args : option (list (list string));
    c_bases : list (list string) }.

Record function_decl : Type := MkFunction
  { f_line : nat;
    f_scope : list string;
    f_member : bool;
    f_name : string;
    f_template : option (list template_param);
    f_return : list string;
    f_params : list (list string);
    f_trailer : list string;
    f_body : option (list token) }.

Inductive item : Type :=
| NamespaceItem (ln : nat) (scope : list string) (name : string)
| AliasItem (ln : nat) (scope : list string) (alias : string) (target : list string)
| ClassItem (c : class_decl)
| FunctionItem (f : function_decl)
| VariableItem (ln : nat) (scope : list string) (member : bool) (decl : list string)
| AccessItem (ln : nat) (scope : list string) (spec : string)
| Unparsed (ln : nat).

(** The template parameters of a header: none without a header. *)
Definition template_params (h : option (list template_param)) : list template_param :=
  match h with Some ps => ps | None => [] end.

(** The name of a function from the tokens before its parameter list, and
    the tokens of its return type: [operator] takes the symbols after it. *)
Fixpoint name_and_return (ts : list token) : string * list string :=
  match ts with
  | [] => (EmptyString, [])
  | [t] => (text t, [])
  | t :: ts' =>
      if is_keyword "operator" t
      then (fold_left String.append (texts ts') (text t), [])
      else let '(n, r) := name_and_return ts' in (n, text t :: r)
  end.

(** The path segments of a qualified name [a::b::c]. *)
Definition path_segments (ts : list token) : list string :=
  texts (List.filter (fun t => negb (is_punct "::" t)) ts).

(** The head of a class after its [class] or [struct] keyword. *)
Definition class_head (ln : nat) (stack : list scope_entry) (key : string)
    (tmpl : option (list template_param)) (hdr : list token) : option class_decl :=
  match hdr with
  | n :: after =>
      if is_ident n then
        let '(args, after') :=
          match after with
          | a :: inside =>
              if is_punct "<" a
              then let '(i, r) := split_angle 0 inside in
                   (Some (map texts (split_commas i)), r)
              else (None, after)
          | [] => (None, [])
          end in
        let bases :=
          match after' with
          | c :: bs => if is_punct ":" c then map texts (split_commas bs) else []
          | [] => []
          end in
        Some (MkClass ln (path_of stack) key (text n) tmpl args bases)
      else None
  | [] => None
  end.

(** A declaration that starts with none of the keywords handled apart: a
    function when its header has a parameter list, a variable otherwise. *)
Definition simple_declaration (stack : list scope_entry)
    (tmpl : option (list template_param)) (first : token)
    (hdr : list token) (term : option token) (rest : list token)
  : item * list token :=
  match split_paren hdr, term with
  | (before, Some (params, trailer)), Some t =>
      let '(n, r) := name_and_return before in
      let '(body, rest') :=
        if is_punct "{" t
        then let '(b, r') := split_close "{" "}" 0 rest in (Some b, r')
        else (None, rest) in
      (FunctionItem
         (MkFunction (line first) (path_of stack) (in_class stack) n tmpl r
            (map texts (split_commas params)) (texts trailer) body), rest')
  | (_, None), Some t =>
      if is_punct ";" t
      then (VariableItem (line first) (path_of stack) (in_class stack) (texts hdr), rest)
      else (Unparsed (line first), rest)
  | _, None => (Unparsed (line first), rest)
  end.

(** [outline_from fuel stack tmpl ts]: the items of [ts], read inside the
    open scopes [stack] with the pending template header [tmpl].  Every step
    consumes a token, so the length of [ts] is fuel enough. *)
Fixpoint outline_from (fuel : nat) (stack : list scope_entry)
    (tmpl : option (list template_param)) (ts : list token) : list item :=
  match fuel, ts with
  | _, [] => []
  | O, t :: _ => [Unparsed (line t)]
  | S fuel', t :: rest =>
      if is_punct "#" t then outline_from fuel' stack tmpl (drop_line (line t) rest)
      else if is_punct ";" t then outline_from fuel' stack None rest
      else if is_punct "}" t then outline_from fuel' (tail stack) None rest
      else if is_keyword "template" t then
        match rest with
        | a :: rest1 =>
            if is_punct "<" a then
              let '(inside, rest2) := split_angle 0 rest1 in
              outline_from fuel' stack
                (Some (map parse_template_param (split_commas inside))) rest2
            else Unparsed (line t) :: outline_from fuel' stack None rest
        | [] => [Unparsed (line t)]
        end
      else if is_keyword "namespace" t then
        match rest with
        | n :: p :: rest2 =>
            if is_ident n && is_punct "{" p then
              NamespaceItem (line t) (path_of stack) (text n)
                :: outline_from fuel' (Scope NamespaceScope (text n) :: stack) None rest2
            else if is_ident n && is_punct "=" p then
              let '(target, rest3) := split_close ";" ";" 0 rest2 in
              AliasItem (line t) (path_of stack) (text n) (path_segments target)
                :: outline_from fuel' stack None rest3
            else Unparsed (line t) :: outline_from fuel' stack None rest
        | _ => [Unparsed (line t)]
        end
      else if is_keyword "class" t || is_keyword "struct" t then
        let '(hdr, term, rest1) := split_header 0 rest in
        match class_head (line t) stack (text t) tmpl hdr, term with
        | Some c, Some b =>
            if is_punct "{" b then
              ClassItem c
                :: outline_from fuel' (Scope ClassScope (c_name c) :: stack) None rest1
            else Unparsed (line t) :: outline_from fuel' stack None rest1
        | _, _ => Unparsed (line t) :: outline_from fuel' stack None rest1
        end
      else if (is_keyword "public" t || is_keyword "private" t
               || is_keyword "protected" t)
              && match rest with c :: _ => is_punct ":" c | [] => false end then
        AccessItem (line t) (path_of stack) (text t)
          :: outline_from fuel' stack None (tail rest)
      else
        let '(hdr, term, rest1) := split_header 0 ts in
        let '(it, rest2) := simple_declaration stack tmpl t hdr term rest1 in
        it :: outline_from fuel' stack None rest2
  end.

Definition outline_of_tokens (ts : list token) : list item :=
  outline_from (List.length ts) [] None ts.

(** The outline of a source text. *)
Definition outline (src : string) : list item := outline_of_tokens (lex src).

(** *** Selections from an outline *)

Definition classes (o : list item) : list class_decl :=
  flat_map (fun i => match i with ClassItem c => [c] | _ => [] end) o.

Definition functions (o : list item) : list function_decl :=
  flat_map (fun i => match i with FunctionItem f => [f] | _ => [] end) o.

(** Namespace declarations as (line, enclosing scope, name). *)
Definition namespaces (o : list item) : list (nat * list string * string) :=
  flat_map (fun i => match i with
                     | NamespaceItem ln sc n => [(ln, sc, n)]
                     | _ => []
                     end) o.

(** Namespace aliases as (line, alias, target path). *)
Definition aliases (o : list item) : list (nat * string * list string) :=
  flat_map (fun i => match i with
                     | AliasItem ln _ a t => [(ln, a, t)]
                     | _ => []
                     end) o.

(** Member variables as (class scope, declaration tokens). *)
Definition fields (o : list item) : list (list string * list string) :=
  flat_map (fun i => match i with
                     | VariableItem _ sc true d => [(sc, d)]
                     | _ => []
                     end) o.

Definition access_specifiers (o : list item) : list (list string * string) :=
  flat_map (fun i => match i with
                     | AccessItem _ sc s => [(sc, s)]
                     | _ => []
                     end) o.

(** The absolute scope path of a class. *)
Definition class_path (c : class_decl) : list string := c_scope c ++ [c_name c].

Definition is_unparsed (i : item) : bool :=
  match i with Unparsed _ => true | _ => false end.

(** Every token of the text was read into an item. *)
Definition fully_parsed (o : list item) : bool := negb (existsb is_unparsed o).

Definition classes_named (n : string) (o : list item) : list class_decl :=
  List.filter (fun c => String.eqb (c_name c) n) (classes o).

Definition functions_named (n : string) (o : list item) : list function_decl :=
  List.filter (fun f => String.eqb (f_name f) n) (functions o).

Fixpoint list_string_eqb (a b : list string) : bool :=
  match a, b with
  | [], [] => true
  | x :: a', y :: b' => String.eqb x y && list_string_eqb a' b'
  | _, _ => false
  end.

(** The absolute scope path of every name an outline declares. *)
Definition declared_paths (o : list item) : list (list string) :=
  flat_map (fun i => match i with
                     | NamespaceItem _ sc n => [sc ++ [n]]
                     | ClassItem c => [c_scope c ++ [c_name c]]
                     | FunctionItem f => [f_scope f ++ [f_name f]]
                     | _ => []
                     end) o.

(** A constructor: a member function named as its class, with no return
    type. *)
Definition is_constructor (f : function_decl) : bool :=
  f_member f
  && match f_return f with [] => true | _ => false end
  && match last (f_scope f) with
     | Some c => String.eqb c (f_name f)
     | None => false
     end.

(** A variadic template: some template parameter is a pack. *)
Definition is_variadic_template (f : function_decl) : bool :=
  existsb is_pack (template_params (f_template f)).

(** The data-model invariant of class declarations: specialization
    arguments come with an empty template parameter list. *)
Definition full_specialization_ok (c : class_decl) : bool :=
  match c_specialization_args c with
  | Some (_ :: _) =>
      match template_params (c_template c) with [] => true | _ => false end
  | _ => true
  end.

(** *** Reading function bodies *)

Fixpoint starts_with (pat : list string) (ts : list string) : bool :=
  match pat, ts with
  | [], _ => true
  | p :: pat', t :: ts' => String.eqb p t && starts_with pat' ts'
  | _ :: _, [] => false
  end.

(** The lines at which the token texts [pat] occur in a row. *)
Fixpoint occurrences (pat : list string) (ts : list token) : list nat :=
  match ts with
  | [] => []
  | t :: ts' =>
      (if starts_with pat (texts ts) then [line t] else [])
        ++ occurrences pat ts'
  end.

Definition count_keyword (k : string) (ts : list token) : nat :=
  List.length (List.filter (is_keyword k) ts).

(** A call with an explicit template argument list,
    [object.callee<template_args>(args)]. *)
Record template_call : Type := TemplateCall
  { tc_line : nat;
    tc_object : option string;
    tc_callee : string;
    tc_template_args : list (list string);
    tc_args : list (list string) }.

Definition object_of (prev2 prev1 : option token) : option string :=
  match prev2, prev1 with
  | Some o, Some d =>
      if is_ident o && (is_punct "." d || is_punct "->" d)
      then Some (text o) else None
  | _, _ => None
  end.

(** A name followed by [<...>(] is a template-qualified call when the
    bracketed list closes before any [;]. *)
Definition template_call_at (prev2 prev1 : option token) (t : token)
    (after : list token) : list template_call :=
  match after with
  | a :: inside =>
      if is_ident t && is_punct "<" a then
        let '(targs, rest) := split_angle 0 inside in
        match rest with
        | p :: rest' =>
            if is_punct "(" p && negb (existsb (is_punct ";") targs) then
              [TemplateCall (line t) (object_of prev2 prev1) (text t)
                 (map texts (split_commas targs))
                 (map texts (split_commas (fst (split_close "(" ")" 0 rest'))))]
            else []
        | [] => []
        end
      else []
  | [] => []
  end.

Fixpoint template_calls_from (prev2 prev1 : option token) (ts : list token)
  : list template_call :=
  match ts with
  | [] => []
  | t :: ts' =>
      template_call_at prev2 prev1 t ts'
        ++ template_calls_from prev1 (Some t) ts'
  end.

Definition template_calls (ts : list token) : list template_call :=
  template_calls_from None None ts.

(** The type a body declares a local variable with: [T x;], [T x(...)] or
    [T x = ...]. *)
Fixpoint declared_type (x : string) (ts : list token) : option string :=
  match ts with
  | [] => None
  | a :: ts' =>
      match ts' with
      | b :: c :: _ =>
          if is_ident a && is_ident b && String.eqb (text b) x
             && (is_punct ";" c || is_punct "(" c || is_punct "=" c)
          then Some (text a)
          else declared_type x ts'
      | _ => None
      end
  end.

Definition body_of (f : function_decl) : list token :=
  match f_body f with Some b => b | None => [] end.

(** The body of the first function of that name and scope. *)
Definition body_named (scope : list string) (n : string) (o : list item)
  : list token :=
  match List.filter (fun f => list_string_eqb (f_scope f) scope) (functions_named n o) with
  | f :: _ => body_of f
  | [] => []
  end.

Definition uses_keyword (k : string) (o : list item) : bool :=
  existsb (fun f => existsb (is_keyword k) (body_of f)) (functions o).

Definition uses_punct (p : string) (o : list item) : bool :=
  existsb (fun f => existsb (is_punct p) (body_of f)) (functions o).

End Outline.

(** ** Calls with explicit template arguments *)
Module Calls.
Import Lex Outline.

(** A function accepts an explicit template argument list only when it is
    declared with a non-empty template parameter list. *)
Definition accepts_template_args (f : function_decl) : bool :=
  match f_template f with Some (_ :: _) => true | _ => false end.

(** The member functions of class [c] that a call names. *)
Definition callees (o : list item) (c : string) (call : template_call)
  : list function_decl :=
  List.filter (fun f => f_member f && list_string_eqb (f_scope f) [c])
         (functions_named (tc_callee call) o).

(** The call [x.f<...>(...)] on an object of class [c] is well formed when
    some member [f] of [c] accepts template arguments. *)
Definition well_formed_call (o : list item) (c : string) (call : template_call)
  : bool :=
  existsb accepts_template_args (callees o c call).

(** The head of a function definition: line, scope, membership, template
    header, return type and parameters. *)
Definition head_of (f : function_decl) :=
  (f_line f, f_scope f, f_member f, f_template f, f_return f, f_params f).

End Calls.

(** ** The input shapes the samples exercise *)
Module Features.
Import Lex Outline.

(** The shapes of input the specification enumerates for the samples. *)
Inductive feature : Type :=
| FreeFunctions
| ClassesWithConstructorsFieldsAccess
| TemplatesWithExplicitSpecialization
| VariadicTemplates
| NestedAndAliasedNamespaces
| OperatorLikeCallSyntax
| SmartPointerMembers
| SimpleControlFlow.

Definition all_features : list feature :=
  [ FreeFunctions; ClassesWithConstructorsFieldsAccess;
    TemplatesWithExplicitSpecialization; VariadicTemplates;
    NestedAndAliasedNamespaces; OperatorLikeCallSyntax; SmartPointerMembers;
    SimpleControlFlow ].

(** A class with a constructor, a field and an access specifier of its own. *)
Definition class_with_members (o : list item) (c : class_decl) : bool :=
  existsb (fun f => is_constructor f && list_string_eqb (f_scope f) (class_path c))
          (functions o)
  && existsb (fun '(sc, _) => list_string_eqb sc (class_path c)) (fields o)
  && existsb (fun '(sc, _) => list_string_eqb sc (class_path c)) (access_specifiers o).

Definition is_template_header (h : option (list template_param)) : bool :=
  match h with Some (_ :: _) => true | _ => false end.

(** [template<> class N<args>]: an empty parameter list and arguments. *)
Definition is_explicit_specialization (c : class_decl) : bool :=
  match c_template c, c_specialization_args c with
  | Some [], Some (_ :: _) => true
  | _, _ => false
  end.

Definition is_primary_template (c : class_decl) : bool :=
  is_template_header (c_template c)
  && match c_specialization_args c with None => true | Some _ => false end.

Definition smart_pointers : list string := ["shared_ptr"; "unique_ptr"; "weak_ptr"].

Definition is_smart_pointer_type (decl : list string) : bool :=
  existsb (fun p => starts_with ["std"; "::"; p; "<"] decl) smart_pointers.

Definition has_feature_in (f : feature) (ts : list token) (o : list item) : bool :=
  match f with
  | FreeFunctions => existsb (fun g => negb (f_member g)) (functions o)
  | ClassesWithConstructorsFieldsAccess =>
      existsb (class_with_members o) (classes o)
  | TemplatesWithExplicitSpecialization =>
      existsb (fun g => is_template_header (f_template g)) (functions o)
      && existsb
           (fun s => is_explicit_specialization s
                     && existsb (fun c => is_primary_template c
                                          && String.eqb (c_name c) (c_name s)
                                          && (c_line c <? c_line s)%nat)
                                (classes o))
           (classes o)
  | VariadicTemplates => existsb is_variadic_template (functions o)
  | NestedAndAliasedNamespaces =>
      existsb (fun '(_, sc, _) => negb (list_string_eqb sc [])) (namespaces o)
      && negb (list_string_eqb (map (fun '(_, a, _) => a) (aliases o)) [])
  | OperatorLikeCallSyntax =>
      existsb (fun g => match template_calls (body_of g) with
                        | [] => false
                        | _ :: _ => true
                        end) (functions o)
  | SmartPointerMembers =>
      existsb (fun '(_, d) => is_smart_pointer_type d) (fields o)
  | SimpleControlFlow =>
      uses_keyword "if" o || uses_keyword "while" o || uses_keyword "for" o
  end.

Definition has_feature (f : feature) (src : string) : bool :=
  has_feature_in f (lex src) (outline src).

(** The names of the samples that show a feature. *)
Definition samples_with (f : feature) : list string :=
  map fst (List.filter (fun '(_, src) => has_feature f src) Samples.samples).

End Features.

(** ** C++ scalar types and exceptions, as the samples use them *)
Module Cpp.

Local Open Scope Z_scope.

(** [int]: 32 bits, two's complement; arithmetic wraps around. *)
Definition int_min : Z := - 2 ^ 31.
Definition int_max : Z := 2 ^ 31 - 1.
Definition is_int (z : Z) : Prop := int_min <= z <= int_max.
Definition wrap_int (z : Z) : Z := (z + 2 ^ 31) mod 2 ^ 32 - 2 ^ 31.

(** [size_t]: 64 bits, unsigned. *)
Definition size_modulus : Z := 2 ^ 64.
Definition wrap_size (z : Z) : Z := z mod size_modulus.

(** [unsigned char]: 8 bits. *)
Definition wrap_uchar (z : Z) : Z := z mod 2 ^ 8.

Inductive exception : Type :=
| out_of_range (what : string).

(** A call either returns a value or leaves by an exception. *)
Inductive outcome (A : Type) : Type :=
| Returned (a : A)
| Thrown (e : exception).

Arguments Returned {A} a.
Arguments Thrown {A} e.

Definition throws {A : Type} (o : outcome A) : Prop :=
  match o with Thrown _ => True | Returned _ => False end.

End Cpp.

(** ** basic_example.cpp *)
Module BasicExample.
Import Cpp.
Local Open Scope Z_scope.

(** [int factorial(int n)], lines 4-9: with [fuel] nested calls allowed.
    [None] is a call chain deeper than the fuel. *)
Fixpoint factorial_fuel (fuel : nat) (n : Z) : option Z :=
  match fuel with
  | O => None
  | S fuel' =>
      if n <=? 1 then Some 1
      else
        match factorial_fuel fuel' (wrap_int (n - 1)) with
        | Some r => Some (wrap_int (n * r))
        | None => None
        end
  end.

(** The number of calls [factorial(n)] makes, itself included. *)
Definition factorial_calls (n : Z) : nat := Z.to_nat (Z.max n 1).

(** [factorial] as a total function: the result with fuel for all its
    calls. *)
Definition factorial (n : Z) : Z :=
  match factorial_fuel (factorial_calls n) n with
  | Some r => r
  | None => 1
  end.

(** The factorial of a natural number, as an unbounded integer. *)
Fixpoint product_to (k : nat) : Z :=
  match k with
  | O => 1
  | S k' => Z.of_nat (S k') * product_to k'
  end.

(** [class Calculator], lines 12-28: one field, [int value]. *)
Record Calculator : Type := { value : Z }.

(** [Calculator() : value(0) {}]. *)
Definition Calculator_ctor : Calculator := {| value := 0 |}.

(** [void computeFactorial(int n)]. *)
Definition computeFactorial (this : Calculator) (n : Z) : Calculator :=
  {| value := factorial n |}.

(** [int getValue() const]. *)
Definition getValue (this : Calculator) : Z := value this.

End BasicExample.

(** ** templates.cpp *)
Module Templates.
Import Cpp.
Local Open Scope Z_scope.

Definition index_error : exception := out_of_range "Index out of range".

(** [template<typename T> T max(T a, T b)], lines 9-12, over a type whose
    [operator>] is [gt]. *)
Definition max {T : Type} (gt : T -> T -> bool) (a b : T) : T :=
  if gt a b then a else b.

(** The primary template [Array<T, Size>], lines 15-37. *)
Module Array.
Section Primary.

Context {T : Type}.
(** [T()], the value-initialized element. *)
Variable T_default : T.
Variable Size : Z.

(** The object: [T data[Size]]. *)
Record Array : Type := { data : list T }.

(** The constructor stores [T()] in every slot. *)
Definition Array_ctor : Array :=
  {| data := repeat T_default (Z.to_nat Size) |}.

(** [T& operator[](int index)]: the reference returned is the offset of
    the slot in [data]; the object is returned as the call leaves it. *)
Definition operator_subscript (this : Array) (index : Z)
  : outcome nat * Array :=
  if (index <? 0) || (index >=? Size)
  then (Thrown index_error, this)
  else (Returned (Z.to_nat index), this).

(** Reading and writing through such a reference. *)
Definition load (this : Array) (ref : nat) : option T := data this !! ref.
Definition store (this : Array) (ref : nat) (v : T) : Array :=
  {| data := <[ref := v]> (data this) |}.

Definition size (this : Array) : Z := Size.

(** The loop of the constructor, lines 22-24, from [i] on:
    [for (...; i < Size; i++) data[i] = T();] with [fuel] iterations
    allowed. *)
Fixpoint Array_ctor_loop (fuel : nat) (i : Z) (this : Array) : option Array :=
  if i <? Size then
    match fuel with
    | O => None
    | S fuel' =>
        Array_ctor_loop fuel' (wrap_int (i + 1)) (store this (Z.to_nat i) T_default)
    end
  else Some this.

(** The constructor run on the storage of a new object. *)
Definition Array_construct (fuel : nat) (storage : list T) : option Array :=
  Array_ctor_loop fuel 0 {| data := storage |}.

(** The object has the [Size] slots of [T data[Size]]. *)
Definition well_formed (this : Array) : Prop :=
  List.length (data this) = Z.to_nat Size.

(** [a[index] = v;], as [main] writes on lines 86-87. *)
Definition assign (this : Array) (index : Z) (v : T) : outcome unit * Array :=
  match operator_subscript this index with
  | (Returned ref, this') => (Returned tt, store this' ref v)
  | (Thrown e, this') => (Thrown e, this')
  end.

(** [a[index]] read as a value, as [main] does on lines 89-90; [None] is a
    reference to no slot. *)
Definition read (this : Array) (index : Z) : outcome (option T) :=
  match operator_subscript this index with
  | (Returned ref, this') => Returned (load this' ref)
  | (Thrown e, _) => Thrown e
  end.

End Primary.
End Array.

(** The full specialization [Array<bool, 8>], lines 40-70. *)
Module Array_bool_8.

(** The object: [unsigned char data]. *)
Record Array : Type := { data : Z }.

Definition Array_ctor : Array := {| data := 0 |}.

(** [bool operator[](int index)]. *)
Definition operator_subscript (this : Array) (index : Z)
  : outcome bool * Array :=
  if (index <? 0) || (index >=? 8)
  then (Thrown index_error, this)
  else (Returned (negb (Z.land (data this) (wrap_int (Z.shiftl 1 index)) =? 0)),
        this).

(** [void set(int index, bool value)]. *)
Definition set (this : Array) (index : Z) (value : bool)
  : outcome unit * Array :=
  if (index <? 0) || (index >=? 8)
  then (Thrown index_error, this)
  else if value
  then (Returned tt,
        {| data := wrap_uchar (Z.lor (data this) (wrap_int (Z.shiftl 1 index))) |})
  else (Returned tt,
        {| data := wrap_uchar
                     (Z.land (data this)
                        (wrap_int (Z.lnot (wrap_int (Z.shiftl 1 index))))) |}).

Definition size (this : Array) : Z := 8.

End Array_bool_8.

End Templates.

(** ** data_structures.cpp *)
Module DataStructures.
Import Cpp.
Local Open Scope Z_scope.

(** A [std::shared_ptr<Node<T>>] is null or the address of a node. *)
Abbreviation pointer := (option Z).

(** Addresses are non-null and fit a 64-bit pointer. *)
Definition valid_addr (a : Z) : Prop := 0 < a < size_modulus.

Section LinkedList.

Context {T : Type}.

(** [struct Node], lines 10-21. *)
Record Node : Type := { data : T; next : pointer }.

(** A list object (lines 24-79) with the memory its nodes live in. *)
Record LinkedList : Type :=
  { heap : gmap Z Node;
    head : pointer;
    size : Z }.

(** [LinkedList() : head(nullptr), size(0) {}]. *)
Definition LinkedList_ctor : LinkedList :=
  {| heap := ∅; head := None; size := 0 |}.

(** [std::make_shared<Node<T>>(value)] placing the node at [a]:
    [Node(T value) : data(value), next(nullptr)]. *)
Definition make_shared (a : Z) (value : T) (h : gmap Z Node) : gmap Z Node :=
  <[a := {| data := value; next := None |}]> h.

(** [p->next = q]. *)
Definition set_next (p : Z) (q : pointer) (h : gmap Z Node) : gmap Z Node :=
  alter (fun n => {| data := data n; next := q |}) p h.

(** [void push_front(T value)], the new node being allocated at [a]. *)
Definition push_front (value : T) (a : Z) (this : LinkedList) : LinkedList :=
  let h := make_shared a value (heap this) in
  let new_node := a in
  let h := set_next new_node (head this) h in
  {| heap := h; head := Some new_node; size := wrap_size (size this + 1) |}.

(** The loop of [push_back], [while (current->next) current = current->next],
    with [fuel] iterations allowed: the node it stops at. *)
Fixpoint last_node (fuel : nat) (h : gmap Z Node) (current : Z) : option Z :=
  match h !! current with
  | None => None
  | Some n =>
      match next n with
      | None => Some current
      | Some nx =>
          match fuel with
          | O => None
          | S fuel' => last_node fuel' h nx
          end
      end
  end.

(** [void push_back(T value)], the new node being allocated at [a].  [None]
    is a loop that outlasts the fuel or follows a pointer to no node. *)
Definition push_back (fuel : nat) (value : T) (a : Z) (this : LinkedList)
  : option LinkedList :=
  let h := make_shared a value (heap this) in
  let new_node := a in
  match head this with
  | None =>
      Some {| heap := h; head := Some new_node;
              size := wrap_size (size this + 1) |}
  | Some hd =>
      match last_node fuel h hd with
      | Some current =>
          Some {| heap := set_next current (Some new_node) h;
                  head := head this;
                  size := wrap_size (size this + 1) |}
      | None => None
      end
  end.

(** [void pop_front()]: the list being the only owner of its nodes, the
    old head is freed when [head] lets go of it.  [None] is a head that
    points to no node. *)
Definition pop_front (this : LinkedList) : option LinkedList :=
  match head this with
  | Some hd =>
      match heap this !! hd with
      | Some n =>
          Some {| heap := delete hd (heap this);
                  head := next n;
                  size := wrap_size (size this - 1) |}
      | None => None
      end
  | None => Some this
  end.

Definition get_size (this : LinkedList) : Z := size this.

(** What a call writes to [std::cout]: a value of [T], a string literal,
    or [std::endl]. *)
Inductive output : Type :=
| OutData (v : T)
| OutText (s : string)
| OutEndl.

(** The loop of [print], lines 73-76, with [fuel] iterations allowed. *)
Fixpoint print_loop (fuel : nat) (h : gmap Z Node) (current : pointer)
  : option (list output) :=
  match current with
  | None => Some []
  | Some a =>
      match fuel with
      | O => None
      | S fuel' =>
          match h !! a with
          | Some n =>
              (fun rest => OutData (data n) :: OutText " -> " :: rest)
                <$> print_loop fuel' h (next n)
          | None => None
          end
      end
  end.

(** [void print() const], lines 71-78: what it writes. *)
Definition print (fuel : nat) (this : LinkedList) : option (list output) :=
  (fun written => written ++ [OutText "nullptr"; OutEndl])
    <$> print_loop fuel (heap this) (head this).

(** A sequence as [print] writes it: every value followed by an arrow,
    then [nullptr] and the end of the line. *)
Definition printed (xs : list T) : list output :=
  flat_map (fun x => [OutData x; OutText " -> "]) xs
    ++ [OutText "nullptr"; OutEndl].

(** [elements h p xs]: the nodes from [p] on hold the values [xs], in that
    order, and end at a null pointer. *)
Inductive elements (h : gmap Z Node) : pointer -> list T -> Prop :=
| elements_null : elements h None []
| elements_step a n xs :
    h !! a = Some n -> elements h (next n) xs ->
    elements h (Some a) (data n :: xs).

(** [nodes h p ls]: following [next] from [p] visits exactly the nodes at
    [ls], in that order, and ends at a null pointer. *)
Inductive nodes (h : gmap Z Node) : pointer -> list Z -> Prop :=
| nodes_null : nodes h None []
| nodes_step a n ls :
    h !! a = Some n -> nodes h (next n) ls -> nodes h (Some a) (a :: ls).

(** The same walk as a function, with [fuel] steps allowed. *)
Fixpoint walk (fuel : nat) (h : gmap Z Node) (p : pointer) : option (list Z) :=
  match p with
  | None => Some []
  | Some a =>
      match fuel with
      | O => None
      | S fuel' =>
          match h !! a with
          | Some n => cons a <$> walk fuel' h (next n)
          | None => None
          end
      end
  end.

(** Every node sits at a valid address. *)
Definition heap_ok (this : LinkedList) : Prop :=
  forall a, is_Some (heap this !! a) -> valid_addr a.

(** [size] is the number of nodes reachable from [head] along [next]. *)
Definition size_counts_nodes (this : LinkedList) : Prop :=
  exists ls, nodes (heap this) (head this) ls
             /\ size this = Z.of_nat (List.length ls).

(** The invariant of a list in memory. *)
Definition invariant (this : LinkedList) : Prop :=
  heap_ok this /\ size_counts_nodes this.

(** The list object stands for the sequence [xs]: its nodes hold [xs] and
    [size] is the length of [xs]. *)
Definition represents (this : LinkedList) (xs : list T) : Prop :=
  heap_ok this
  /\ elements (heap this) (head this) xs
  /\ size this = Z.of_nat (List.length xs).


End LinkedList.

Arguments Node T : clear implicits.
Arguments LinkedList T : clear implicits.
Arguments output T : clear implicits.

(** The list of [main], lines 83-89: three [push_back] and a [push_front],
    the nodes being allocated at addresses 1 to 4. *)
Definition main_pushes : option (LinkedList Z) :=
  l1 ← push_back 8 1 1 LinkedList_ctor;
  l2 ← push_back 8 2 2 l1;
  l3 ← push_back 8 3 3 l2;
  Some (push_front 0 4 l3).

(** The list of [main] after [list.pop_front()], line 96. *)
Definition main_pop : option (LinkedList Z) := main_pushes ≫= pop_front.

(** The addresses of the nodes of a list, from [head] on. *)
Definition order {T : Type} (this : LinkedList T) : option (list Z) :=
  walk (Z.to_nat (size this)) (heap this) (head this).

End DataStructures.

(** ** namespaces.cpp *)
Module Namespaces.

(** [double] is IEEE 754 binary64: every operation is rounded to the
    nearest value, ties to even, and all NaNs are one value. *)
Local Open Scope float_scope.
#[local] Set Warnings "-inexact-float".

(** [namespace math], lines 8-46. *)

(** [const double PI = 3.14159265358979323846;], the literal rounded to the
    nearest [double]. *)
Definition PI : float := 3.14159265358979323846.

(** [double square(double x)]. *)
Definition square (x : float) : float := x * x.

(** [double cube(double x)]. *)
Definition cube (x : float) : float := x * x * x.

(** [struct Point], lines 21-29. *)
Record Point : Type := { x : float; y : float }.

(** [Point(double x_val = 0, double y_val = 0) : x(x_val), y(y_val) {}]. *)
Definition Point_ctor (x_val y_val : float) : Point :=
  {| x := x_val; y := y_val |}.

(** [double distance(const Point& other) const]. *)
Definition distance (this other : Point) : float :=
  PrimFloat.sqrt (square (x this - x other) + square (y this - y other)).

(** [struct Circle], lines 31-44. *)
Record Circle : Type := { center : Point; radius : float }.

(** [Circle(const Point& c, double r) : center(c), radius(r) {}]. *)
Definition Circle_ctor (c : Point) (r : float) : Circle :=
  {| center := c; radius := r |}.

(** [double area() const]. *)
Definition area (this : Circle) : float := PI * square (radius this).

(** [double circumference() const]. *)
Definition circumference (this : Circle) : float := 2 * PI * radius this.

(** A value of the binary64 specification that is NaN or carries no
    minus sign. *)
Definition plus_or_nan (s : spec_float) : Prop :=
  match s with
  | S754_nan => True
  | S754_zero sg | S754_infinity sg | S754_finite sg _ _ => sg = false
  end.

(** A [double] that is not NaN and not below zero. *)
Definition at_least_zero (v : float) : bool := 0 <=? v.

End Namespaces.

(** ** The AST model and the Scope/Namespace Resolver

    Modelled from the spec: the repository contains no parsing engine; the
    node taxonomy, the arena and the Resolver below follow the
    specification's data model and its description of the resolver pass. *)
Module Engine.

Definition NodeId : Type := nat.

(** Modelled from the spec: [TypeRef], a qualified path with template
    arguments, pointer depth and reference flag. *)
Inductive TypeRef : Type :=
| MkTypeRef (qualified_path : list string) (template_args : list TypeRef)
            (pointer_depth : nat) (is_reference : bool).

Definition type_path (t : TypeRef) : list string :=
  match t with MkTypeRef p _ _ _ => p end.

Inductive TemplateParam : Type :=
| TypeParameter (name : string)
| NonTypeParameter (type_ : TypeRef) (name : string).

Record Param : Type := { p_name : string; p_type : TypeRef }.

Inductive AccessSpecifier : Type := Public | Protected | Private.

(** Modelled from the spec: a source span, by byte offsets, line and
    column. *)
Record Span : Type :=
  { start_byte : nat; end_byte : nat; span_line : nat; span_column : nat }.

(** Modelled from the spec: the closed set of node variants; nodes refer
    to each other by [NodeId]. *)
Inductive AstNode : Type :=
| TranslationUnit (top_level : list NodeId)
| NamespaceDecl (name : option string) (body : list NodeId) (span : Span)
| NamespaceAlias (alias : string) (target_path : list string)
| FunctionDecl (name : string) (template_params : list TemplateParam)
               (params : list Param) (return_type : TypeRef)
               (body : option NodeId) (is_variadic_template : bool)
| ClassDecl (name : string) (template_params : list TemplateParam)
            (specialization_args : option (list TypeRef))
            (bases : list TypeRef) (members : list (AccessSpecifier * NodeId))
| FieldDecl (name : string) (type_ : TypeRef)
| If (cond then_ : NodeId) (else_ : option NodeId)
| Return (expr : option NodeId)
| ExprStmt (expr : NodeId)
| Block (stmts : list NodeId)
| While (cond body : NodeId)
| BinaryOp (op : string) (lhs rhs : NodeId)
| UnaryOp (op : string) (operand : NodeId)
| Call (callee : NodeId) (template_args : option (list TypeRef)) (args : list NodeId)
| MemberAccess (base : NodeId) (member : string) (is_arrow : bool)
| Literal (value : string)
| Identifier (qualified_path : list string)
| Ternary (cond then_ else_ : NodeId)
| TypeRefNode (type_ : TypeRef).

(** Modelled from the spec: the arena, append-only, indexed by [NodeId]. *)
Definition allocate (node : AstNode) (arena : list AstNode) : NodeId * list AstNode :=
  (List.length arena, arena ++ [node]).

Definition get (arena : list AstNode) (id : NodeId) : option AstNode := arena !! id.

Inductive UnresolvedReason : Type := NotFound | Ambiguous.

Inductive ResolutionResult : Type :=
| Resolved (absolute_scope_path : list string)
| Unresolved (reason : UnresolvedReason).

(** The scopes that enclose a scope path, the path itself first and the
    global scope last. *)
Fixpoint enclosing_chain (scope : list string) : list (list string) :=
  match scope with
  | [] => [[]]
  | s :: scope' => map (cons s) (enclosing_chain scope') ++ [[]]
  end.

(** The declared entities a path names from a scope, innermost first. *)
Definition search (declared : list (list string)) (scope path : list string)
  : list (list string) :=
  List.filter (fun c => bool_decide (c ∈ declared))
         (map (fun s => s ++ path) (enclosing_chain scope)).

Fixpoint lookup_alias (a : string) (table : list (string * list string))
  : option (list string) :=
  match table with
  | [] => None
  | (b, target) :: table' =>
      if String.eqb a b then Some target else lookup_alias a table'
  end.

(** Modelled from the spec: the alias substitution on the leading path
    segment. *)
Definition substitute_alias (table : list (string * list string))
    (path : list string) : list string :=
  match path with
  | seg :: rest =>
      match lookup_alias seg table with
      | Some target => target ++ rest
      | None => path
      end
  | [] => []
  end.

(** Modelled from the spec: a path is searched in the current scope and
    its enclosing chain, then with the alias substitution applied to its
    leading segment.  An unqualified name that two scopes of the chain
    declare is ambiguous. *)
Definition resolve_path (declared : list (list string))
    (table : list (string * list string)) (scope path : list string)
  : ResolutionResult :=
  match search declared scope path with
  | [found] => Resolved found
  | found :: _ :: _ =>
      match path with
      | [_] => Unresolved Ambiguous
      | _ => Resolved found
      end
  | [] =>
      match search declared scope (substitute_alias table path) with
      | found :: _ => Resolved found
      | [] => Unresolved NotFound
      end
  end.

(** The state of the Resolver's walk; [annotations] is the side table. *)
Record resolver_state : Type := ResolverState
  { scope : list string;
    declared : list (list string);
    alias_table : list (string * list string);
    annotations : gmap NodeId ResolutionResult }.

Definition annotate (id : NodeId) (r : ResolutionResult) (st : resolver_state)
  : resolver_state :=
  ResolverState (scope st) (declared st) (alias_table st)
    (<[id := r]> (annotations st)).

(** Registering a declared name in the current scope. *)
Definition register (id : NodeId) (name : string) (st : resolver_state)
  : resolver_state :=
  ResolverState (scope st) ((scope st ++ [name]) :: declared st) (alias_table st)
    (<[id := Resolved (scope st ++ [name])]> (annotations st)).

Definition add_alias (alias : string) (target : list string) (st : resolver_state)
  : resolver_state :=
  ResolverState (scope st) (declared st) ((alias, target) :: alias_table st)
    (annotations st).

Definition with_scope (sc : list string) (st : resolver_state) : resolver_state :=
  ResolverState sc (declared st) (alias_table st) (annotations st).

(** A state with the entries of a further table under its own. *)
Definition overlay (st : resolver_state) (under : gmap NodeId ResolutionResult)
  : resolver_state :=
  ResolverState (scope st) (declared st) (alias_table st) (annotations st ∪ under).

Definition option_list {A : Type} (o : option A) : list A :=
  match o with Some a => [a] | None => [] end.

(** Modelled from the spec: the walk of the Resolver from node [id], with
    [fuel] levels of nesting allowed.  Namespaces and classes push a named
    scope around their members, declarations register their name, and
    identifiers and type references are resolved where they stand. *)
Fixpoint visit (fuel : nat) (arena : list AstNode) (id : NodeId)
    (st : resolver_state) : resolver_state :=
  match fuel with
  | O => st
  | S fuel' =>
      let visit_all (ids : list NodeId) (s : resolver_state) :=
        fold_left (fun s' i => visit fuel' arena i s') ids s in
      match get arena id with
      | None => st
      | Some node =>
          match node with
          | TranslationUnit top_level => visit_all top_level st
          | NamespaceDecl name body _ =>
              match name with
              | Some n =>
                  let st1 := register id n st in
                  with_scope (scope st)
                    (visit_all body (with_scope (scope st ++ [n]) st1))
              | None => visit_all body st
              end
          | NamespaceAlias alias target => add_alias alias target st
          | FunctionDecl name _ _ _ body _ =>
              visit_all (option_list body) (register id name st)
          | ClassDecl name _ _ _ members =>
              let st1 := register id name st in
              with_scope (scope st)
                (visit_all (map snd members) (with_scope (scope st ++ [name]) st1))
          | FieldDecl name _ => register id name st
          | If c t e => visit_all (c :: t :: option_list e) st
          | Return e => visit_all (option_list e) st
          | ExprStmt e => visit_all [e] st
          | Block stmts => visit_all stmts st
          | While c b => visit_all [c; b] st
          | BinaryOp _ l r => visit_all [l; r] st
          | UnaryOp _ o => visit_all [o] st
          | Call callee _ args => visit_all (callee :: args) st
          | MemberAccess base _ _ => visit_all [base] st
          | Literal _ => st
          | Identifier path =>
              annotate id
                (resolve_path (declared st) (alias_table st) (scope st) path) st
          | Ternary c t e => visit_all [c; t; e] st
          | TypeRefNode t =>
              annotate id
                (resolve_path (declared st) (alias_table st) (scope st)
                   (type_path t)) st
          end
      end
  end.

(** Modelled from the spec: an error of the lexer or the parser, with the
    span of the offending text. *)
Inductive Diagnostic : Type :=
| LexError (span : Span)
| ParseError (expected found : string) (span : Span).

(** Modelled from the spec: the engine's output for one translation unit. *)
Record ParseOutput : Type := Output
  { ast_root : NodeId;
    arena : list AstNode;
    errors : list Diagnostic;
    resolution_table : gmap NodeId ResolutionResult }.

(** Modelled from the spec: one run of the Resolver over an output.  It
    walks the tree from the root in the global scope and writes into the
    side table; the arena and the errors are handed back as they came. *)
Definition run_resolver (out : ParseOutput) : ParseOutput :=
  let st :=
    visit (S (List.length (arena out))) (arena out) (ast_root out)
      (ResolverState [] [] [] (resolution_table out)) in
  Output (ast_root out) (arena out) (errors out) (annotations st).

(** The alias table an outline declares. *)
Definition alias_table_of (o : list Outline.item) : list (string * list string) :=
  map (fun '(_, a, t) => (a, t)) (Outline.aliases o).

End Engine.

(** * Theorems *)

(** ** The text of the samples *)
Section SampleStructure.
Import Text Samples Lex Outline Calls Features Engine.

(** Closed facts about the samples are settled by evaluation, one
    conjunct at a time. *)
Ltac by_computation :=
  repeat (split; [vm_compute; reflexivity|]); vm_compute; reflexivity.

(** *** Lines *)

(** A text without line feed is one line, or none when it is empty and
    nothing is pending. *)
Lemma count_lines_from_one_line (s : string) :
  forall pending, count_newlines s = 0%nat ->
    count_lines_from pending s = if pending || negb (is_empty s) then 1%nat else 0%nat.
Proof.
  induction s as [|c s IH]; intros pending H; simpl in *.
  - by rewrite orb_false_r.
  - destruct (Ascii.eqb c nl_char); [discriminate|].
    rewrite IH by exact H. by rewrite orb_true_r.
Qed.

(** A line and its line feed count for one, whatever was pending. *)
Lemma count_lines_from_line (l rest : string) :
  forall pending, count_newlines l = 0%nat ->
    count_lines_from pending (String.append l (String nl_char rest))
    = S (count_lines_from false rest).
Proof.
  induction l as [|c l IH]; intros pending H; simpl in *.
  - reflexivity.
  - destruct (Ascii.eqb c nl_char); [discriminate|]. by apply IH.
Qed.

(** [count_lines] counts the lines a text is made of, the unterminated
    last one included. *)
Lemma count_lines_text_of (ls : list string) (last : string) :
  Forall (fun l => count_newlines l = 0%nat) ls -> count_newlines last = 0%nat ->
  count_lines (text_of ls last)
  = (List.length ls + if is_empty last then 0 else 1)%nat.
Proof.
  unfold count_lines. intros Hls Hlast.
  induction Hls as [|l ls Hl _ IH]; simpl.
  - rewrite (count_lines_from_one_line last false Hlast). by destruct last.
  - unfold text_of in *. by rewrite (count_lines_from_line l _ false Hl), IH.
Qed.

(** The embedded texts have the sizes of the files, in bytes. *)
Example sample_sizes :
  map (fun '(name, src) => (name, String.length src)) samples
  = [ ("basic_example.cpp", 642%nat); ("data_structures.cpp", 2196%nat);
      ("namespaces.cpp", 2067%nat); ("templates.cpp", 2296%nat) ].
Proof. vm_compute. reflexivity. Qed.

(** *** Declarations *)

(** Every sample is read to its end: no item of an outline is unparsed. *)
Lemma samples_fully_parsed :
  forallb (fun '(_, src) => fully_parsed (outline src)) samples = true.
Proof. vm_compute. reflexivity. Qed.

(** C9. The four samples have 36, 104, 84 and 105 lines, 329 in all; a
    line is a run of characters ended by a line feed or by the end of the
    file.  templates.cpp ends without a line feed after its last [}]: it
    has 104 line feeds and 105 lines. *)
Theorem sample_files_total_329_lines :
  map count_lines
      [basic_example_cpp; data_structures_cpp; namespaces_cpp; templates_cpp]
    = [36; 104; 84; 105]%nat
  /\ (count_lines basic_example_cpp + count_lines data_structures_cpp
      + count_lines namespaces_cpp + count_lines templates_cpp = 329)%nat
  /\ map count_newlines
        [basic_example_cpp; data_structures_cpp; namespaces_cpp; templates_cpp]
     = [36; 104; 84; 104]%nat
  /\ map (fun ts => (text <$> last ts, line <$> last ts))
         [lex basic_example_cpp; lex data_structures_cpp; lex namespaces_cpp;
          lex templates_cpp]
     = [ (Some "}", Some 35%nat); (Some "}", Some 103%nat);
         (Some "}", Some 83%nat); (Some "}", Some 105%nat) ].
Proof. by_computation. Qed.

(** C1. templates.cpp declares exactly two classes named [Array], in this
    order: the primary template (header on line 15, class head on line 16)
    with the two template parameters [typename T] and [int Size] and no
    specialization arguments, then the explicit specialization (header
    [template<>] on line 40, class head on line 41) with no template
    parameter and the specialization arguments [bool, 8].  The file has no
    other [class] or [struct] keyword, and every class of it satisfies the
    invariant that specialization arguments come with an empty template
    parameter list. *)
Theorem templates_cpp_declares_Array_twice :
  fully_parsed (outline templates_cpp) = true
  /\ classes_named "Array" (outline templates_cpp)
     = [ MkClass 16 [] "class" "Array"
           (Some [TypeParam "T" false; NonTypeParam ["int"] "Size"]) None [];
         MkClass 41 [] "class" "Array"
           (Some []) (Some [["bool"]; ["8"]]) [] ]
  /\ classes (outline templates_cpp) = classes_named "Array" (outline templates_cpp)
  /\ count_keyword "class" (lex templates_cpp) = 2%nat
  /\ count_keyword "struct" (lex templates_cpp) = 0%nat
  /\ occurrences ["template"; "<"; "typename"; "T"; ","; "int"; "Size"; ">";
                  "class"; "Array"; "{"] (lex templates_cpp) = [15%nat]
  /\ occurrences ["template"; "<"; ">"; "class"; "Array"; "<"; "bool"; ",";
                  "8"; ">"; "{"] (lex templates_cpp) = [40%nat]
  /\ forallb full_specialization_ok (classes (outline templates_cpp)) = true.
Proof. by_computation. Qed.

(** C2. namespaces.cpp declares one top-level namespace [math] (line 8),
    one namespace [geometry] nested in [math] (line 20), one further
    top-level namespace [utils] (line 49) and one namespace alias [geo]
    (line 61), and no other namespace or alias: these are all the
    namespace items of its outline and the four occurrences of the keyword
    [namespace] in its text. *)
Theorem namespaces_cpp_namespace_outline :
  fully_parsed (outline namespaces_cpp) = true
  /\ namespaces (outline namespaces_cpp)
     = [ (8%nat, [], "math"); (20%nat, ["math"], "geometry"); (49%nat, [], "utils") ]
  /\ aliases (outline namespaces_cpp) = [ (61%nat, "geo", ["math"; "geometry"]) ]
  /\ occurrences ["namespace"] (lex namespaces_cpp) = [8; 20; 49; 61]%nat
  /\ count_keyword "namespace" (lex namespaces_cpp) = 4%nat.
Proof. by_computation. Qed.

(** C3. In namespaces.cpp the declaration on line 61 introduces the alias
    [geo] for the path [math; geometry]; the struct [Point] is declared in
    scope [math; geometry]; the references [geo::Point] stand on lines 72
    and 73, after the alias, in the body of [main] at global scope; and the
    alias substitution on the leading segment of [geo; Point] gives
    [math; geometry; Point], the path the Resolver returns for the
    reference from the global scope and the path of that struct. *)
Theorem namespaces_cpp_geo_Point :
  aliases (outline namespaces_cpp) = [ (61%nat, "geo", ["math"; "geometry"]) ]
  /\ classes_named "Point" (outline namespaces_cpp)
     = [ MkClass 21 ["math"; "geometry"] "struct" "Point" None None [] ]
  /\ occurrences ["geo"; "::"; "Point"] (lex namespaces_cpp) = [72; 73]%nat
  /\ forallb (fun ln => 61 <? ln)%nat
             (occurrences ["geo"; "::"; "Point"] (lex namespaces_cpp)) = true
  /\ occurrences ["geo"; "::"; "Point"]
                 (body_named [] "main" (outline namespaces_cpp)) = [72; 73]%nat
  /\ substitute_alias (alias_table_of (outline namespaces_cpp)) ["geo"; "Point"]
     = ["math"; "geometry"; "Point"]
  /\ resolve_path (declared_paths (outline namespaces_cpp))
                  (alias_table_of (outline namespaces_cpp)) [] ["geo"; "Point"]
     = Resolved ["math"; "geometry"; "Point"]
  /\ map class_path (classes_named "Point" (outline namespaces_cpp))
     = [ ["math"; "geometry"; "Point"] ].
Proof. by_computation. Qed.

(** C4. In basic_example.cpp the only function named [computeFactorial] is
    the member of [Calculator] on line 17, declared with no template
    parameter list, returning [void] and taking the one parameter [int n];
    the body of [main] declares [calc] as a [Calculator] and holds one call
    with explicit template arguments, [calc.computeFactorial<Calculator>(5)]
    on line 33; no member [computeFactorial] of [Calculator] accepts
    template arguments (the file has no [template] keyword at all), so the
    call is not well formed. *)
Theorem basic_example_cpp_template_call_on_non_template :
  map head_of (functions_named "computeFactorial" (outline basic_example_cpp))
    = [ (17%nat, ["Calculator"], true, None, ["void"], [["int"; "n"]]) ]
  /\ declared_type "calc" (body_named [] "main" (outline basic_example_cpp))
     = Some "Calculator"
  /\ template_calls (body_named [] "main" (outline basic_example_cpp))
     = [ TemplateCall 33 (Some "calc") "computeFactorial" [["Calculator"]] [["5"]] ]
  /\ map (fun call => map accepts_template_args
                          (callees (outline basic_example_cpp) "Calculator" call))
         (template_calls (body_named [] "main" (outline basic_example_cpp)))
     = [ [false] ]
  /\ forallb (well_formed_call (outline basic_example_cpp) "Calculator")
             (template_calls (body_named [] "main" (outline basic_example_cpp)))
     = false
  /\ count_keyword "template" (lex basic_example_cpp) = 0%nat.
Proof. by_computation. Qed.

(** C8. Every input shape the specification enumerates occurs in a sample:
    the variadic function template is [print] in templates.cpp, the
    smart-pointer-typed members are the [std::shared_ptr<Node<T>>] fields
    [next] and [head] of data_structures.cpp, and the nested and the
    aliased namespace are in namespaces.cpp.  The call syntax that looks
    like an operator is found both as a name followed by [<...>(] (in
    basic_example.cpp and data_structures.cpp) and as the subscripts that
    call the [operator[]] of [Array] in the [main] of templates.cpp. *)
Theorem every_input_shape_has_a_sample :
  (forall f : feature, existsb (fun '(_, src) => has_feature f src) samples = true)
  /\ map samples_with all_features
     = [ ["basic_example.cpp"; "data_structures.cpp"; "namespaces.cpp"; "templates.cpp"];
         ["basic_example.cpp"; "data_structures.cpp"; "templates.cpp"];
         ["templates.cpp"];
         ["templates.cpp"];
         ["namespaces.cpp"];
         ["basic_example.cpp"; "data_structures.cpp"];
         ["data_structures.cpp"];
         ["basic_example.cpp"; "data_structures.cpp"; "templates.cpp"] ]
  /\ map (fun f => (f_line f, f_name f, f_template f, f_params f))
         (List.filter is_variadic_template (functions (outline templates_cpp)))
     = [ (74%nat, "print", Some [TypeParam "Args" true], [["Args"; "..."; "args"]]) ]
  /\ List.filter (fun '(_, d) => is_smart_pointer_type d) (fields (outline data_structures_cpp))
     = [ (["Node"], ["std"; "::"; "shared_ptr"; "<"; "Node"; "<"; "T"; ">>"; "next"]);
         (["LinkedList"], ["std"; "::"; "shared_ptr"; "<"; "Node"; "<"; "T"; ">>"; "head"]) ]
  /\ List.filter (fun '(_, sc, _) => negb (list_string_eqb sc [])) (namespaces (outline namespaces_cpp))
     = [ (20%nat, ["math"], "geometry") ]
  /\ map (fun '(_, a, _) => a) (aliases (outline namespaces_cpp)) = [ "geo" ]
  /\ map (fun f => (f_line f, f_scope f))
         (functions_named "operator[]" (outline templates_cpp))
     = [ (27%nat, ["Array"]); (48%nat, ["Array"]) ]
  /\ occurrences ["intArray"; "["] (body_named [] "main" (outline templates_cpp))
       ++ occurrences ["boolArray"; "["] (body_named [] "main" (outline templates_cpp))
     = [86; 87; 89; 90; 97; 98; 99]%nat.
Proof.
  split; [intros []; vm_compute; reflexivity|]. by_computation.
Qed.

End SampleStructure.

(** ** basic_example.cpp: [factorial] *)
Section Factorial.
Import Cpp BasicExample.
Local Open Scope Z_scope.

Lemma wrap_int_id (z : Z) : is_int z -> wrap_int z = z.
Proof.
  unfold is_int, int_min, int_max, wrap_int. intros H.
  rewrite Z.mod_small; lia.
Qed.

Lemma wrap_int_is_int (z : Z) : is_int (wrap_int z).
Proof.
  unfold is_int, int_min, int_max, wrap_int.
  pose proof (Z.mod_pos_bound (z + 2 ^ 31) (2 ^ 32)). lia.
Qed.

Lemma factorial_calls_base (n : Z) : n <= 1 -> factorial_calls n = 1%nat.
Proof. unfold factorial_calls. intros H. rewrite Z.max_r by lia. reflexivity. Qed.

Lemma factorial_calls_step (n : Z) :
  1 < n -> factorial_calls n = S (factorial_calls (n - 1)).
Proof. unfold factorial_calls. lia. Qed.

(** One call more than the argument needs is never made: with fuel for
    all its calls, [factorial_fuel] returns a value of type [int]. *)
Lemma factorial_fuel_enough (fuel : nat) :
  forall n, is_int n -> (factorial_calls n <= fuel)%nat ->
            exists v, factorial_fuel fuel n = Some v /\ is_int v.
Proof.
  induction fuel as [|fuel IH]; intros n Hn Hfuel.
  - unfold factorial_calls in Hfuel. lia.
  - simpl. destruct (Z.leb_spec n 1) as [Hle|Hgt].
    + exists 1. split; [reflexivity|]. unfold is_int, int_min, int_max. lia.
    + assert (Hpred : is_int (n - 1))
        by (unfold is_int, int_min, int_max in *; lia).
      rewrite (wrap_int_id _ Hpred).
      destruct (IH (n - 1) Hpred) as [r [Hr _]].
      { rewrite (factorial_calls_step n Hgt) in Hfuel. lia. }
      rewrite Hr. eexists. split; [reflexivity|]. apply wrap_int_is_int.
Qed.

(** More fuel does not change a result. *)
Lemma factorial_fuel_more (fuel : nat) :
  forall n v, factorial_fuel fuel n = Some v ->
              forall fuel', (fuel <= fuel')%nat -> factorial_fuel fuel' n = Some v.
Proof.
  induction fuel as [|fuel IH]; intros n v H fuel' Hle; [discriminate|].
  destruct fuel' as [|fuel']; [lia|].
  simpl in *. destruct (n <=? 1); [assumption|].
  destruct (factorial_fuel fuel (wrap_int (n - 1))) as [r|] eqn:Hr; [|discriminate].
  rewrite (IH _ _ Hr fuel') by lia. assumption.
Qed.

(** With less fuel than calls, the call chain is cut. *)
Lemma factorial_fuel_short (fuel : nat) :
  forall n, is_int n -> (fuel < factorial_calls n)%nat -> factorial_fuel fuel n = None.
Proof.
  induction fuel as [|fuel IH]; intros n Hn Hfuel; [reflexivity|].
  simpl. destruct (Z.leb_spec n 1) as [Hle|Hgt].
  - rewrite (factorial_calls_base n Hle) in Hfuel. lia.
  - assert (Hpred : is_int (n - 1))
      by (unfold is_int, int_min, int_max in *; lia).
    rewrite (wrap_int_id _ Hpred), (IH (n - 1) Hpred); [reflexivity|].
    rewrite (factorial_calls_step n Hgt) in Hfuel. lia.
Qed.

Lemma factorial_returns (n : Z) :
  is_int n -> factorial_fuel (factorial_calls n) n = Some (factorial n).
Proof.
  intros Hn. unfold factorial.
  destruct (factorial_fuel_enough (factorial_calls n) n Hn) as [v [Hv _]]; [lia|].
  rewrite Hv. reflexivity.
Qed.

(** C5. For every [int] value [n], [factorial(n)] returns: its chain of
    [factorial_calls n] nested calls yields [factorial n], itself an [int],
    with any fuel that covers the chain and with none that is shorter.
    For [n <= 1] the single call returns 1 without recursing.  For
    [n > 1] the argument of the recursive call, [n - 1], does not wrap, lies
    in [1, n) and needs one call fewer, and the value returned is
    [n * factorial(n - 1)] in wrap-around 32-bit arithmetic. *)
Theorem factorial_terminates (n : Z) :
  is_int n ->
  (forall fuel, (factorial_calls n <= fuel)%nat ->
                factorial_fuel fuel n = Some (factorial n))
  /\ (forall fuel, (fuel < factorial_calls n)%nat -> factorial_fuel fuel n = None)
  /\ is_int (factorial n)
  /\ (n <= 1 -> factorial_fuel 1 n = Some 1 /\ factorial n = 1)
  /\ (1 < n ->
      wrap_int (n - 1) = n - 1
      /\ 1 <= n - 1 < n
      /\ factorial_calls n = S (factorial_calls (n - 1))
      /\ factorial n = wrap_int (n * factorial (n - 1))).
Proof.
  intros Hn. pose proof (factorial_returns n Hn) as Hret.
  split; [|split; [|split; [|split]]].
  - intros fuel Hfuel. exact (factorial_fuel_more _ _ _ Hret fuel Hfuel).
  - intros fuel Hfuel. exact (factorial_fuel_short fuel n Hn Hfuel).
  - destruct (factorial_fuel_enough (factorial_calls n) n Hn) as [v [Hv Hi]]; [lia|].
    rewrite Hret in Hv. injection Hv as ->. exact Hi.
  - intros Hle.
    assert (H1 : factorial_fuel 1 n = Some 1).
    { simpl. destruct (Z.leb_spec n 1); [reflexivity|lia]. }
    split; [exact H1|].
    rewrite (factorial_calls_base n Hle), H1 in Hret. congruence.
  - intros Hgt.
    assert (Hpred : is_int (n - 1))
      by (unfold is_int, int_min, int_max in *; lia).
    split; [exact (wrap_int_id _ Hpred)|].
    split; [lia|].
    split; [exact (factorial_calls_step n Hgt)|].
    rewrite (factorial_calls_step n Hgt) in Hret. simpl in Hret.
    destruct (Z.leb_spec n 1); [lia|].
    rewrite (wrap_int_id _ Hpred), (factorial_returns _ Hpred) in Hret.
    congruence.
Qed.

(** The theorem at [n = 5]: five calls, the value 120. *)
Lemma factorial_terminates_at_5 :
  is_int 5
  /\ (forall fuel, (factorial_calls 5 <= fuel)%nat ->
                   factorial_fuel fuel 5 = Some (factorial 5))
  /\ (forall fuel, (fuel < factorial_calls 5)%nat -> factorial_fuel fuel 5 = None)
  /\ is_int (factorial 5)
  /\ (5 <= 1 -> factorial_fuel 1 5 = Some 1 /\ factorial 5 = 1)
  /\ (1 < 5 ->
      wrap_int (5 - 1) = 5 - 1
      /\ 1 <= 5 - 1 < 5
      /\ factorial_calls 5 = S (factorial_calls (5 - 1))
      /\ factorial 5 = wrap_int (5 * factorial (5 - 1))).
Proof.
  assert (H : is_int 5) by (unfold is_int, int_min, int_max; lia).
  split; [exact H | exact (factorial_terminates 5 H)].
Defined.

(** Values of [factorial], the last two past the range of [int]. *)
Example factorial_values :
  map factorial [-3; 0; 1; 2; 5; 12; 13; 17]
  = [1; 1; 1; 2; 120; 479001600; 1932053504; -288522240].
Proof. vm_compute. reflexivity. Qed.

End Factorial.

(** ** templates.cpp: [Array] and [Array<bool, 8>] *)
Section ArrayBounds.
Import Cpp Templates.
Local Open Scope Z_scope.

Lemma out_of_bounds_test (index Size : Z) :
  (index <? 0) || (index >=? Size) = true <-> index < 0 \/ index >= Size.
Proof.
  rewrite orb_true_iff, Z.ltb_lt, Z.geb_le. lia.
Qed.

(** The primary template: [operator[]] throws exactly out of bounds, and
    never touches the object. *)
Lemma Array_subscript_bounds {T : Type} (Size : Z) (this : @Array.Array T)
    (index : Z) :
  (throws (fst (Array.operator_subscript Size this index))
   <-> index < 0 \/ index >= Size)
  /\ (index < 0 \/ index >= Size ->
      Array.operator_subscript Size this index = (Thrown index_error, this))
  /\ (0 <= index < Size ->
      Array.operator_subscript Size this index = (Returned (Z.to_nat index), this)).
Proof.
  unfold Array.operator_subscript.
  pose proof (out_of_bounds_test index Size) as Htest.
  destruct ((index <? 0) || (index >=? Size)); simpl.
  - split; [tauto|]. split; [reflexivity|]. intros ?.
    assert (index < 0 \/ index >= Size) by (apply Htest; reflexivity). lia.
  - assert (Hin : ~ (index < 0 \/ index >= Size))
      by (intros H; apply Htest in H; discriminate).
    split; [tauto|]. split; [tauto|reflexivity].
Qed.

Lemma Array_bool_8_subscript_bounds (this : Array_bool_8.Array) (index : Z) :
  (throws (fst (Array_bool_8.operator_subscript this index))
   <-> index < 0 \/ index >= 8)
  /\ snd (Array_bool_8.operator_subscript this index) = this.
Proof.
  unfold Array_bool_8.operator_subscript.
  pose proof (out_of_bounds_test index 8) as Htest.
  destruct ((index <? 0) || (index >=? 8)); simpl.
  - split; [tauto|reflexivity].
  - split; [|reflexivity]. split; [tauto|].
    intros H. apply Htest in H. discriminate.
Qed.

Lemma Array_bool_8_set_bounds (this : Array_bool_8.Array) (index : Z)
    (value : bool) :
  (throws (fst (Array_bool_8.set this index value))
   <-> index < 0 \/ index >= 8)
  /\ (index < 0 \/ index >= 8 ->
      Array_bool_8.set this index value = (Thrown index_error, this)).
Proof.
  unfold Array_bool_8.set.
  pose proof (out_of_bounds_test index 8) as Htest.
  destruct ((index <? 0) || (index >=? 8)); simpl.
  - split; [tauto|reflexivity].
  - assert (Hin : ~ (index < 0 \/ index >= 8))
      by (intros H; apply Htest in H; discriminate).
    split; [|tauto]. destruct value; simpl; tauto.
Qed.

(** *** The bits of [Array<bool, 8>] *)

Lemma in_bounds_test (index : Z) :
  0 <= index < 8 -> (index <? 0) || (index >=? 8) = false.
Proof.
  intros H. apply orb_false_iff. split; [apply Z.ltb_ge; lia|].
  rewrite Z.geb_leb. apply Z.leb_gt. lia.
Qed.

Lemma index_cases (index : Z) :
  0 <= index < 8 ->
  index = 0 \/ index = 1 \/ index = 2 \/ index = 3 \/ index = 4
  \/ index = 5 \/ index = 6 \/ index = 7.
Proof. lia. Qed.

(** [1 << index] and its complement are computed in [int] without wrap. *)
Lemma shift_in_int (index : Z) :
  0 <= index < 8 -> wrap_int (Z.shiftl 1 index) = 2 ^ index.
Proof.
  intros H. rewrite Z.shiftl_1_l.
  destruct (index_cases index H) as [->|[->|[->|[->|[->|[->|[->| ->]]]]]]];
    reflexivity.
Qed.

Lemma lnot_shift_in_int (index : Z) :
  0 <= index < 8 -> wrap_int (Z.lnot (2 ^ index)) = Z.lnot (2 ^ index).
Proof.
  intros H.
  destruct (index_cases index H) as [->|[->|[->|[->|[->|[->|[->| ->]]]]]]];
    reflexivity.
Qed.

(** Within bounds, [operator[]] returns bit [index] of the byte. *)
Lemma Array_bool_8_subscript_testbit (this : Array_bool_8.Array) (index : Z) :
  0 <= index < 8 ->
  fst (Array_bool_8.operator_subscript this index)
  = Returned (Z.testbit (Array_bool_8.data this) index).
Proof.
  intros Hi. unfold Array_bool_8.operator_subscript.
  rewrite (in_bounds_test index Hi), (shift_in_int index Hi). simpl. f_equal.
  destruct (Z.testbit (Array_bool_8.data this) index) eqn:Hb.
  - apply negb_true_iff, Z.eqb_neq. intros H0.
    assert (H : Z.testbit (Z.land (Array_bool_8.data this) (2 ^ index)) index = false)
      by (rewrite H0; apply Z.bits_0).
    rewrite Z.land_spec, Hb, Z.pow2_bits_true in H by lia. discriminate.
  - apply negb_false_iff, Z.eqb_eq, Z.bits_inj'. intros k Hk.
    rewrite Z.land_spec, Z.bits_0. destruct (Z.eq_dec k index) as [->|Hne].
    + by rewrite Hb.
    + rewrite Z.pow2_bits_false by lia. apply andb_false_r.
Qed.

(** Within bounds, [set] writes bit [index] of the byte and keeps the
    other seven. *)
Lemma Array_bool_8_set_testbit (this : Array_bool_8.Array) (index : Z)
    (value : bool) (j : Z) :
  0 <= index < 8 -> 0 <= j < 8 ->
  Z.testbit (Array_bool_8.data (snd (Array_bool_8.set this index value))) j
  = if j =? index then value else Z.testbit (Array_bool_8.data this) j.
Proof.
  intros Hi Hj. unfold Array_bool_8.set.
  rewrite (in_bounds_test index Hi), (shift_in_int index Hi).
  destruct value; simpl; unfold wrap_uchar.
  - rewrite Z.mod_pow2_bits_low by lia. rewrite Z.lor_spec.
    destruct (Z.eqb_spec j index) as [->|Hne].
    + rewrite Z.pow2_bits_true by lia. apply orb_true_r.
    + rewrite Z.pow2_bits_false by lia. apply orb_false_r.
  - rewrite (lnot_shift_in_int index Hi).
    rewrite Z.mod_pow2_bits_low by lia. rewrite Z.land_spec, Z.lnot_spec by lia.
    destruct (Z.eqb_spec j index) as [->|Hne].
    + rewrite Z.pow2_bits_true by lia. apply andb_false_r.
    + rewrite Z.pow2_bits_false by lia. apply andb_true_r.
Qed.

(** Reading after writing: [a.set(i, v)] makes [a[i]] return [v] and leaves
    what [a[j]] returns for every other [j]. *)
Lemma Array_bool_8_set_then_subscript (this : Array_bool_8.Array)
    (index : Z) (value : bool) (j : Z) :
  0 <= index < 8 -> 0 <= j < 8 ->
  fst (Array_bool_8.operator_subscript
         (snd (Array_bool_8.set this index value)) j)
  = if j =? index then Returned value
    else fst (Array_bool_8.operator_subscript this j).
Proof.
  intros Hi Hj.
  rewrite !Array_bool_8_subscript_testbit by exact Hj.
  rewrite (Array_bool_8_set_testbit this index value j Hi Hj).
  by destruct (j =? index).
Qed.

(** C7. For every index, [operator[]] of the primary template
    [Array<T, Size>], and [operator[]] and [set] of [Array<bool, 8>], throw
    [std::out_of_range] if and only if [index < 0] or [index >= Size]
    (8 for the specialization), and a call that throws hands the object
    back with its data as it was. *)
Theorem Array_throws_iff_out_of_bounds :
  (forall (T : Type) (Size : Z) (this : @Array.Array T) (index : Z),
      (throws (fst (Array.operator_subscript Size this index))
       <-> index < 0 \/ index >= Size)
      /\ (throws (fst (Array.operator_subscript Size this index)) ->
          fst (Array.operator_subscript Size this index) = Thrown index_error
          /\ Array.data (snd (Array.operator_subscript Size this index))
             = Array.data this))
  /\ (forall (this : Array_bool_8.Array) (index : Z),
      (throws (fst (Array_bool_8.operator_subscript this index))
       <-> index < 0 \/ index >= 8)
      /\ (throws (fst (Array_bool_8.operator_subscript this index)) ->
          fst (Array_bool_8.operator_subscript this index) = Thrown index_error
          /\ Array_bool_8.data (snd (Array_bool_8.operator_subscript this index))
             = Array_bool_8.data this))
  /\ (forall (this : Array_bool_8.Array) (index : Z) (value : bool),
      (throws (fst (Array_bool_8.set this index value))
       <-> index < 0 \/ index >= 8)
      /\ (throws (fst (Array_bool_8.set this index value)) ->
          fst (Array_bool_8.set this index value) = Thrown index_error
          /\ Array_bool_8.data (snd (Array_bool_8.set this index value))
             = Array_bool_8.data this)).
Proof.
  split; [|split].
  - intros T Size this index.
    destruct (Array_subscript_bounds Size this index) as [Hiff [Hout _]].
    split; [exact Hiff|]. intros Hthrow. apply Hiff in Hthrow.
    rewrite (Hout Hthrow). split; reflexivity.
  - intros this index.
    destruct (Array_bool_8_subscript_bounds this index) as [Hiff Hsame].
    split; [exact Hiff|]. intros Hthrow. rewrite Hsame. split; [|reflexivity].
    unfold Array_bool_8.operator_subscript in *.
    destruct ((index <? 0) || (index >=? 8)); [reflexivity|contradiction].
  - intros this index value.
    destruct (Array_bool_8_set_bounds this index value) as [Hiff Hout].
    split; [exact Hiff|]. intros Hthrow. apply Hiff in Hthrow.
    rewrite (Hout Hthrow). split; reflexivity.
Qed.

(** The theorem at work: index 8 and index -1 throw and leave the byte
    [0b10100101] of an [Array<bool, 8>] as it was; index 3 does not throw. *)
Lemma Array_throws_iff_out_of_bounds_at_8 :
  (8 < 0 \/ 8 >= 8)
  /\ throws (fst (Array_bool_8.set {| Array_bool_8.data := 165 |} 8 true))
  /\ Array_bool_8.data (snd (Array_bool_8.set {| Array_bool_8.data := 165 |} 8 true)) = 165
  /\ ~ throws (fst (Array_bool_8.set {| Array_bool_8.data := 165 |} 3 true)).
Proof.
  pose proof (proj2 (proj2 Array_throws_iff_out_of_bounds)) as Hset.
  assert (Hout : 8 < 0 \/ 8 >= 8) by (right; lia).
  split; [exact Hout|].
  destruct (Hset {| Array_bool_8.data := 165 |} 8 true) as [Hiff Hkeep].
  split; [apply Hiff; exact Hout|].
  split; [apply Hkeep, Hiff; exact Hout|].
  destruct (Hset {| Array_bool_8.data := 165 |} 3 true) as [Hiff3 _].
  intros Hthrow. apply Hiff3 in Hthrow. lia.
Defined.

(** What [set] and [operator[]] compute within bounds: bit [index] of the
    byte. *)
Example Array_bool_8_bits :
  map (fun i => fst (Array_bool_8.operator_subscript
                       (snd (Array_bool_8.set
                               (snd (Array_bool_8.set Array_bool_8.Array_ctor 0 true))
                               3 true)) i))
      [0; 1; 3; 7]
  = [Returned true; Returned false; Returned true; Returned false].
Proof. vm_compute. reflexivity. Qed.

End ArrayBounds.

(** ** data_structures.cpp: [LinkedList] *)
Section LinkedListInvariant.
Import Cpp DataStructures.
Local Open Scope Z_scope.

Context {T : Type}.
Implicit Types (h : gmap Z (Node T)) (p : pointer) (ls : list Z).
Implicit Types (this : LinkedList T).

(** *** The chain of nodes *)

(** Following [next] is deterministic. *)
Lemma nodes_det h p ls1 :
  nodes h p ls1 -> forall ls2, nodes h p ls2 -> ls1 = ls2.
Proof.
  induction 1 as [|a n ls Ha _ IH]; intros ls2 H2; inversion H2; subst.
  - reflexivity.
  - f_equal. apply IH. congruence.
Qed.

Lemma nodes_allocated h p ls :
  nodes h p ls -> forall a, a ∈ ls -> is_Some (h !! a).
Proof.
  induction 1 as [|a n ls Ha _ IH]; intros b Hb.
  - by apply elem_of_nil in Hb.
  - apply elem_of_cons in Hb as [->|Hb]; [by eexists | by apply IH].
Qed.

Lemma nodes_suffix h ls1 :
  forall p a ls2, nodes h p (ls1 ++ a :: ls2) -> nodes h (Some a) (a :: ls2).
Proof.
  induction ls1 as [|b ls1 IH]; intros p a ls2 H; inversion H; subst.
  - by econstructor.
  - by eapply IH.
Qed.

(** A chain that ends at a null pointer visits no node twice. *)
Lemma nodes_NoDup h p ls : nodes h p ls -> NoDup ls.
Proof.
  induction 1 as [|a n ls Ha Hls IH]; constructor; [|exact IH].
  intros Hin. apply list_elem_of_split in Hin as [l1 [l2 ->]].
  pose proof (nodes_suffix _ _ _ _ _ Hls) as Hsuf.
  pose proof (nodes_det _ _ _ (nodes_step h a n _ Ha Hls) _ Hsuf) as Heq.
  apply (f_equal (@List.length Z)) in Heq. simpl in Heq.
  rewrite length_app in Heq. simpl in Heq. lia.
Qed.

(** A chain only depends on the nodes it visits. *)
Lemma nodes_ext h h' p ls :
  nodes h p ls -> (forall a, a ∈ ls -> h' !! a = h !! a) -> nodes h' p ls.
Proof.
  induction 1 as [|a n ls Ha _ IH]; intros Hsame; [constructor|].
  econstructor.
  - rewrite Hsame; [exact Ha | by left].
  - apply IH. intros b Hb. apply Hsame. by right.
Qed.

(** [walk] computes the chain. *)
Lemma walk_nodes fuel :
  forall h p ls, walk fuel h p = Some ls -> nodes h p ls.
Proof.
  induction fuel as [|fuel IH]; intros h [a|] ls H; simpl in H;
    try discriminate; try (injection H as <-; constructor).
  destruct (h !! a) as [n|] eqn:Ha; [|discriminate].
  destruct (walk fuel h (next n)) as [ls'|] eqn:Hw; [|discriminate].
  injection H as <-. econstructor; [exact Ha | by apply IH].
Qed.

Lemma nodes_walk h p ls :
  nodes h p ls -> forall fuel, (List.length ls <= fuel)%nat -> walk fuel h p = Some ls.
Proof.
  induction 1 as [|a n ls Ha _ IH]; intros fuel Hfuel.
  - by destruct fuel.
  - destruct fuel as [|fuel]; simpl in *; [lia|].
    rewrite Ha, IH by lia. reflexivity.
Qed.

(** Distinct valid addresses are fewer than [2^64]. *)
Lemma valid_addrs_length ls :
  NoDup ls -> (forall a, a ∈ ls -> valid_addr a) ->
  Z.of_nat (List.length ls) < size_modulus.
Proof.
  intros Hnd Hvalid.
  assert (Hsub : ls ⊆+ seqZ 1 (size_modulus - 1)).
  { apply NoDup_submseteq; [exact Hnd|]. intros a Ha.
    apply elem_of_seqZ. specialize (Hvalid a Ha). unfold valid_addr in Hvalid. lia. }
  apply submseteq_length in Hsub. rewrite length_seqZ in Hsub.
  assert (0 < size_modulus) by (unfold size_modulus; lia). lia.
Qed.

Lemma nodes_length h p ls :
  (forall a, is_Some (h !! a) -> valid_addr a) -> nodes h p ls ->
  Z.of_nat (List.length ls) < size_modulus.
Proof.
  intros Hvalid Hls. apply valid_addrs_length.
  - by eapply nodes_NoDup.
  - intros a Ha. apply Hvalid. by eapply nodes_allocated.
Qed.

Lemma wrap_size_id (z : Z) : 0 <= z < size_modulus -> wrap_size z = z.
Proof. intros H. unfold wrap_size. by apply Z.mod_small. Qed.

(** *** The heap after each operation *)

Lemma lookup_set_next_ne h a b q :
  a <> b -> set_next a q h !! b = h !! b.
Proof. intros Hne. unfold set_next. by rewrite lookup_alter_ne. Qed.

Lemma lookup_set_next_eq h a q n :
  h !! a = Some n ->
  set_next a q h !! a = Some {| data := data n; next := q |}.
Proof. intros Ha. unfold set_next. by rewrite lookup_alter_eq, Ha. Qed.

Lemma set_next_allocated h a q b :
  is_Some (set_next a q h !! b) -> is_Some (h !! b).
Proof. unfold set_next. by rewrite lookup_alter_is_Some. Qed.

(** The loop of [push_back] stops at the last node of the chain. *)
Lemma last_node_nodes h ls :
  forall hd fuel, nodes h (Some hd) ls -> (List.length ls <= S fuel)%nat ->
                  exists lst n, last ls = Some lst
                                /\ last_node fuel h hd = Some lst
                                /\ h !! lst = Some n /\ next n = None.
Proof.
  induction ls as [|a ls IH]; intros hd fuel H Hfuel;
    inversion H as [|a' n ls' Ha Hrest]; subst.
  destruct ls as [|b ls].
  - inversion Hrest as [Hnull|]; subst.
    exists a, n. split; [reflexivity|].
    split; [|by split]. destruct fuel; simpl; by rewrite Ha, <- Hnull.
  - inversion Hrest as [|b' m ls' Hb Hrest' Hnext]; subst.
    destruct fuel as [|fuel]; [simpl in Hfuel; lia|].
    destruct (IH b fuel) as [lst [k [Hlast [Hloop Hk]]]].
    { by rewrite Hnext. }
    { simpl in *. lia. }
    exists lst, k. split; [by rewrite last_cons_cons|].
    split; [|exact Hk]. simpl. by rewrite Ha, <- Hnext.
Qed.

(** Linking a node behind the last one extends the chain by it. *)
Lemma nodes_link_last h ls :
  forall hd lst a m,
    nodes h (Some hd) ls -> last ls = Some lst ->
    h !! a = Some m -> next m = None -> a ∉ ls ->
    nodes (set_next lst (Some a) h) (Some hd) (ls ++ [a]).
Proof.
  induction ls as [|b ls IH]; intros hd lst a m H Hlast Ha Hm Hnotin;
    inversion H as [|b' n ls' Hb Hrest]; subst.
  assert (Hab : a <> b) by (intros ->; apply Hnotin; by left).
  pose proof (nodes_NoDup _ _ _ H) as Hnd. apply NoDup_cons in Hnd as [Hfirst _].
  destruct ls as [|c ls].
  - injection Hlast as <-. inversion Hrest as [Hnull|]; subst.
    simpl. econstructor; [by apply lookup_set_next_eq|]. simpl.
    econstructor.
    + rewrite lookup_set_next_ne by congruence. exact Ha.
    + rewrite Hm. constructor.
  - rewrite last_cons_cons in Hlast.
    assert (Hne : lst <> b).
    { intros ->. apply Hfirst. by apply last_Some_elem_of. }
    simpl. econstructor.
    + rewrite lookup_set_next_ne by exact Hne. exact Hb.
    + inversion Hrest as [|c' k ls' Hc Hrest' Hnext]; subst.
      eapply (IH c lst a m); try eassumption.
      * by rewrite Hnext.
      * intros Hin. apply Hnotin. by right.
Qed.

(** *** The invariant *)

Lemma invariant_ctor : invariant (@LinkedList_ctor T).
Proof.
  split.
  - intros a [n Hn]. simpl in Hn. by rewrite lookup_empty in Hn.
  - exists []. split; [constructor | reflexivity].
Qed.

Lemma invariant_push_front this (value : T) (a : Z) :
  invariant this -> heap this !! a = None -> valid_addr a ->
  invariant (push_front value a this).
Proof.
  intros [Hvalid [ls [Hls Hsize]]] Hfresh Ha.
  assert (Hnotin : a ∉ ls).
  { intros Hin. apply (nodes_allocated _ _ _ Hls) in Hin as [n Hn]. congruence. }
  assert (Hvalid' : forall b, is_Some (heap (push_front value a this) !! b) ->
                              valid_addr b).
  { intros b Hb. simpl in Hb. apply set_next_allocated in Hb.
    unfold make_shared in Hb. destruct (decide (a = b)) as [<-|Hne]; [exact Ha|].
    rewrite lookup_insert_ne in Hb by exact Hne. by apply Hvalid. }
  assert (Hls' : nodes (heap (push_front value a this)) (Some a) (a :: ls)).
  { simpl. econstructor.
    - apply lookup_set_next_eq. unfold make_shared. apply lookup_insert_eq.
    - simpl. apply (nodes_ext (heap this)); [exact Hls|].
      intros b Hb. assert (a <> b) by (intros ->; contradiction).
      rewrite lookup_set_next_ne by assumption.
      unfold make_shared. by rewrite lookup_insert_ne. }
  split; [exact Hvalid'|]. exists (a :: ls). split; [exact Hls'|].
  pose proof (nodes_length _ _ _ Hvalid' Hls') as Hlen.
  simpl in *. rewrite Hsize. rewrite wrap_size_id; lia.
Qed.

Lemma invariant_push_back this (value : T) (a : Z) (fuel : nat) :
  invariant this -> heap this !! a = None -> valid_addr a ->
  (Z.to_nat (size this) <= fuel)%nat ->
  exists this', push_back fuel value a this = Some this' /\ invariant this'.
Proof.
  intros [Hvalid [ls [Hls Hsize]]] Hfresh Ha Hfuel.
  assert (Hnotin : a ∉ ls).
  { intros Hin. apply (nodes_allocated _ _ _ Hls) in Hin as [n Hn]. congruence. }
  set (h1 := make_shared a value (heap this)).
  assert (Hh1a : h1 !! a = Some {| data := value; next := None |})
    by apply lookup_insert_eq.
  assert (Hls1 : nodes h1 (head this) ls).
  { apply (nodes_ext (heap this)); [exact Hls|]. intros b Hb.
    unfold h1, make_shared. rewrite lookup_insert_ne; [reflexivity|].
    intros ->. contradiction. }
  assert (Hvalid1 : forall b, is_Some (h1 !! b) -> valid_addr b).
  { intros b Hb. unfold h1, make_shared in Hb.
    destruct (decide (a = b)) as [<-|Hne]; [exact Ha|].
    rewrite lookup_insert_ne in Hb by exact Hne. by apply Hvalid. }
  unfold push_back. fold h1. destruct (head this) as [hd|] eqn:Hhead.
  - destruct (last_node_nodes h1 ls hd fuel Hls1)
      as [lst [n [Hlast [Hloop [Hn Hnext]]]]]; [lia|].
    rewrite Hloop. eexists. split; [reflexivity|].
    assert (Hls' : nodes (set_next lst (Some a) h1) (Some hd) (ls ++ [a]))
      by (eapply nodes_link_last; eauto).
    assert (Hvalid' : forall b, is_Some (set_next lst (Some a) h1 !! b) ->
                                valid_addr b)
      by (intros b Hb; apply Hvalid1; by eapply set_next_allocated).
    split; [exact Hvalid'|]. exists (ls ++ [a]). split; [exact Hls'|].
    pose proof (nodes_length _ _ _ Hvalid' Hls') as Hlen.
    simpl. rewrite length_app in *. simpl in *. rewrite Hsize.
    rewrite wrap_size_id; lia.
  - inversion Hls; subst. eexists. split; [reflexivity|].
    assert (Hls' : nodes h1 (Some a) [a]).
    { econstructor; [exact Hh1a|]. constructor. }
    split; [exact Hvalid1|]. exists [a]. split; [exact Hls'|].
    simpl in *. rewrite Hsize. apply wrap_size_id. unfold size_modulus. lia.
Qed.

Lemma invariant_pop_front this :
  invariant this ->
  exists this', pop_front this = Some this' /\ invariant this'.
Proof.
  intros [Hvalid [ls [Hls Hsize]]]. unfold pop_front.
  pose proof (nodes_length _ _ _ Hvalid Hls) as Hlen.
  pose proof (nodes_NoDup _ _ _ Hls) as Hnd.
  destruct (head this) as [hd|] eqn:Hhead.
  - inversion Hls as [|a n ls' Ha Hrest]; subst.
    rewrite Ha. eexists. split; [reflexivity|].
    apply NoDup_cons in Hnd as [Hnotin _].
    split.
    + intros b Hb. simpl in Hb. apply Hvalid.
      destruct (decide (hd = b)) as [<-|Hne].
      * rewrite lookup_delete_eq in Hb. by destruct Hb.
      * by rewrite lookup_delete_ne in Hb.
    + exists ls'. simpl. split.
      * apply (nodes_ext (heap this)); [exact Hrest|]. intros b Hb.
        rewrite lookup_delete_ne; [reflexivity|]. intros ->. contradiction.
      * rewrite Hsize. simpl in *. rewrite wrap_size_id; lia.
  - exists this. split; [reflexivity|].
    split; [exact Hvalid|]. exists ls. rewrite Hhead. by split.
Qed.

(** Under the invariant, [size] steps from [head] reach the null pointer
    past exactly [size] nodes. *)
Lemma invariant_order this :
  invariant this ->
  exists ls, order this = Some ls /\ size this = Z.of_nat (List.length ls).
Proof.
  intros [_ [ls [Hls Hsize]]]. exists ls. split; [|exact Hsize].
  unfold order. apply nodes_walk; [exact Hls|]. rewrite Hsize. lia.
Qed.

Lemma pop_front_empty this : head this = None -> pop_front this = Some this.
Proof. intros H. unfold pop_front. by rewrite H. Qed.

End LinkedListInvariant.

(** C6. For every [LinkedList<T>], [size] is the number of nodes reachable
    from [head] along [next]: the invariant holds of a fresh list, and
    [push_front], [push_back] (whose loop ends within [size] iterations)
    and [pop_front] return with it when called with it, the new node being
    allocated at a free valid address; [pop_front] on an empty list leaves
    the list, so [head] and [size], as they were.  The nodes reachable from
    [head] are determined by the heap, and under the invariant a walk of
    [size] steps from [head] visits exactly [size] nodes and ends at the
    null pointer. *)
Theorem LinkedList_size_counts_nodes (T : Type) :
  DataStructures.invariant (@DataStructures.LinkedList_ctor T)
  /\ (forall (this : DataStructures.LinkedList T) (value : T) (a : Z),
         DataStructures.invariant this ->
         DataStructures.heap this !! a = None -> DataStructures.valid_addr a ->
         DataStructures.invariant (DataStructures.push_front value a this))
  /\ (forall (this : DataStructures.LinkedList T) (value : T) (a : Z) (fuel : nat),
         DataStructures.invariant this ->
         DataStructures.heap this !! a = None -> DataStructures.valid_addr a ->
         (Z.to_nat (DataStructures.size this) <= fuel)%nat ->
         exists this', DataStructures.push_back fuel value a this = Some this'
                       /\ DataStructures.invariant this')
  /\ (forall this : DataStructures.LinkedList T,
         DataStructures.invariant this ->
         exists this', DataStructures.pop_front this = Some this'
                       /\ DataStructures.invariant this')
  /\ (forall this : DataStructures.LinkedList T,
         DataStructures.head this = None ->
         DataStructures.pop_front this = Some this)
  /\ (forall (this : DataStructures.LinkedList T) (ls1 ls2 : list Z),
         DataStructures.nodes (DataStructures.heap this) (DataStructures.head this) ls1 ->
         DataStructures.nodes (DataStructures.heap this) (DataStructures.head this) ls2 ->
         ls1 = ls2)
  /\ (forall this : DataStructures.LinkedList T,
         DataStructures.invariant this ->
         exists ls, DataStructures.order this = Some ls
                    /\ DataStructures.size this = Z.of_nat (List.length ls)).
Proof.
  split; [apply invariant_ctor|].
  split; [intros; by apply invariant_push_front|].
  split; [intros; by apply invariant_push_back|].
  split; [intros; by apply invariant_pop_front|].
  split; [intros; by apply pop_front_empty|].
  split; [intros this ls1 ls2 H1 H2; by eapply nodes_det|].
  intros; by apply invariant_order.
Qed.

(** The theorem on a list of [nat]: after [push_front(10)] with the node
    at address 1, on [push_back(20)] with the node at address 2 and on
    [pop_front()]. *)
Lemma LinkedList_size_counts_nodes_example :
  DataStructures.invariant
    (DataStructures.push_front 10%nat 1 DataStructures.LinkedList_ctor)
  /\ (exists this',
         DataStructures.push_back 1 20%nat 2
           (DataStructures.push_front 10%nat 1 DataStructures.LinkedList_ctor)
         = Some this' /\ DataStructures.invariant this')
  /\ (exists this',
         DataStructures.pop_front
           (DataStructures.push_front 10%nat 1 DataStructures.LinkedList_ctor)
         = Some this' /\ DataStructures.invariant this').
Proof.
  destruct (LinkedList_size_counts_nodes nat) as [Hctor [Hfront [Hback [Hpop _]]]].
  assert (Hvalid : forall a : Z, (0 < a < 3)%Z -> DataStructures.valid_addr a)
    by (unfold DataStructures.valid_addr, Cpp.size_modulus; lia).
  assert (H1 : DataStructures.invariant
                 (DataStructures.push_front 10%nat 1 DataStructures.LinkedList_ctor)).
  { apply Hfront; [exact Hctor | reflexivity | apply Hvalid; lia]. }
  split; [exact H1|]. split.
  - apply Hback; [exact H1 | reflexivity | apply Hvalid; lia | vm_compute; lia].
  - apply Hpop. exact H1.
Defined.

(** The list of [main]: [size] and the order of the nodes after the four
    pushes and after the pop. *)
Example LinkedList_main_run :
  (DataStructures.get_size <$> DataStructures.main_pushes) = Some 4%Z
  /\ (DataStructures.main_pushes ≫= DataStructures.order) = Some [4; 1; 2; 3]%Z
  /\ (DataStructures.get_size <$> DataStructures.main_pop) = Some 3%Z
  /\ (DataStructures.main_pop ≫= DataStructures.order) = Some [1; 2; 3]%Z.
Proof. vm_compute. repeat split; reflexivity. Qed.

(** ** The Resolver *)
Section ResolverIdempotent.
Import Engine.

Implicit Types (st : resolver_state) (under : gmap NodeId ResolutionResult).

(** Every step of the walk writes over the side table without reading it:
    it commutes with [overlay]. *)
Lemma annotate_overlay id r st under :
  annotate id r (overlay st under) = overlay (annotate id r st) under.
Proof. unfold annotate, overlay. simpl. by rewrite insert_union_l. Qed.

Lemma register_overlay id name st under :
  register id name (overlay st under) = overlay (register id name st) under.
Proof. unfold register, overlay. simpl. by rewrite insert_union_l. Qed.

Lemma add_alias_overlay a t st under :
  add_alias a t (overlay st under) = overlay (add_alias a t st) under.
Proof. reflexivity. Qed.

Lemma with_scope_overlay sc st under :
  with_scope sc (overlay st under) = overlay (with_scope sc st) under.
Proof. reflexivity. Qed.

Lemma fold_overlay (f : NodeId -> resolver_state -> resolver_state) under :
  (forall id st, f id (overlay st under) = overlay (f id st) under) ->
  forall ids st,
    fold_left (fun s i => f i s) ids (overlay st under)
    = overlay (fold_left (fun s i => f i s) ids st) under.
Proof.
  intros Hf ids. induction ids as [|i ids IH]; intros st; simpl; [reflexivity|].
  by rewrite Hf, IH.
Qed.

Lemma visit_overlay fuel arena under :
  forall id st,
    visit fuel arena id (overlay st under) = overlay (visit fuel arena id st) under.
Proof.
  induction fuel as [|fuel IH]; intros id st; [reflexivity|].
  pose proof (fold_overlay (visit fuel arena) under IH) as Hall.
  simpl. destruct (get arena id) as [node|]; [|reflexivity].
  destruct node as
    [ top | [n|] body sp | a t | name tps ps rt body v | name tps sa bs members
    | name ty | c t e | e | e | stmts | c b | op l r | op o | callee ta args
    | base mem arrow | v | path | c t e | ty ];
    repeat (rewrite register_overlay || rewrite with_scope_overlay
            || rewrite Hall || rewrite IH || rewrite annotate_overlay
            || rewrite add_alias_overlay);
    reflexivity.
Qed.

Lemma initial_state_overlay under :
  ResolverState [] [] [] under = overlay (ResolverState [] [] [] ∅) under.
Proof. unfold overlay. simpl. by rewrite (left_id_L ∅ (∪)). Qed.

(** One run lays what it writes over the table it is given. *)
Lemma run_resolver_table (out : ParseOutput) :
  resolution_table (run_resolver out)
  = resolution_table
      (run_resolver (Output (ast_root out) (arena out) (errors out) ∅))
      ∪ resolution_table out.
Proof.
  unfold run_resolver. cbn [resolution_table arena ast_root].
  by rewrite (initial_state_overlay (resolution_table out)), visit_overlay.
Qed.

(** C10. Running the Resolver twice on the same AST gives the same
    [resolution_table] as running it once, and a run hands the arena, the
    root and the errors back unchanged. *)
Theorem resolver_idempotent (out : ParseOutput) :
  resolution_table (run_resolver (run_resolver out))
  = resolution_table (run_resolver out)
  /\ run_resolver (run_resolver out) = run_resolver out
  /\ arena (run_resolver out) = arena out
  /\ ast_root (run_resolver out) = ast_root out
  /\ errors (run_resolver out) = errors out.
Proof.
  assert (Htable : resolution_table (run_resolver (run_resolver out))
                   = resolution_table (run_resolver out)).
  { rewrite (run_resolver_table (run_resolver out)).
    rewrite (run_resolver_table out). simpl.
    by rewrite (assoc_L (∪)), (idemp_L (∪)). }
  split; [exact Htable|]. split; [|repeat split; reflexivity].
  destruct (run_resolver (run_resolver out)) as [r a e t] eqn:H2.
  destruct (run_resolver out) as [r1 a1 e1 t1] eqn:H1.
  assert (r = r1 /\ a = a1 /\ e = e1) as [-> [-> ->]].
  { unfold run_resolver in H2. cbn [ast_root arena errors] in H2.
    by injection H2 as <- <- <- _. }
  simpl in Htable. by rewrite Htable.
Qed.

(** A reference through an alias, from the global scope: when the path as
    written names nothing and the path behind the alias is declared, the
    reference resolves to that path. *)
Lemma resolve_through_alias (declared : list (list string))
    (table : list (string * list string)) (a : string)
    (target rest : list string) :
  lookup_alias a table = Some target ->
  (a :: rest) ∉ declared ->
  (target ++ rest) ∈ declared ->
  substitute_alias table (a :: rest) = target ++ rest
  /\ resolve_path declared table [] (a :: rest) = Resolved (target ++ rest).
Proof.
  intros Ha Hraw Hin.
  assert (Hsub : substitute_alias table (a :: rest) = target ++ rest)
    by (unfold substitute_alias; by rewrite Ha).
  split; [exact Hsub|].
  unfold resolve_path. rewrite Hsub. unfold search. simpl.
  rewrite (bool_decide_eq_false_2 _ Hraw), (bool_decide_eq_true_2 _ Hin).
  reflexivity.
Qed.

(** A run on a small tree shaped like namespaces.cpp: the declarations are
    annotated with their scope paths and the reference [geo::Point] in
    [main] with the path of the struct behind the alias. *)
Example resolver_on_namespaces_shape :
  let tree :=
    [ TranslationUnit [1; 5; 6];
      NamespaceDecl (Some "math") [2] (Build_Span 118 1078 8 1);
      NamespaceDecl (Some "geometry") [3] (Build_Span 344 1076 20 5);
      ClassDecl "Point" [] None [] [(Public, 4)];
      FieldDecl "x" (MkTypeRef ["double"] [] 0 false);
      NamespaceAlias "geo" ["math"; "geometry"];
      FunctionDecl "main" [] [] (MkTypeRef ["int"] [] 0 false) (Some 7) false;
      Block [8];
      ExprStmt 9;
      Identifier ["geo"; "Point"] ] in
  map (fun id => resolution_table (run_resolver (Output 0 tree [] ∅)) !! id)
      [1; 2; 3; 4; 6; 9]
  = [ Some (Resolved ["math"]);
      Some (Resolved ["math"; "geometry"]);
      Some (Resolved ["math"; "geometry"; "Point"]);
      Some (Resolved ["math"; "geometry"; "Point"; "x"]);
      Some (Resolved ["main"]);
      Some (Resolved ["math"; "geometry"; "Point"]) ].
Proof. vm_compute. reflexivity. Qed.

End ResolverIdempotent.

(** ** basic_example.cpp: the values of [factorial] *)
Section FactorialValues.
Import Cpp BasicExample.
Local Open Scope Z_scope.

Lemma factorial_base (n : Z) : n <= 1 -> factorial n = 1.
Proof.
  intros Hle. unfold factorial. rewrite (factorial_calls_base n Hle). simpl.
  destruct (Z.leb_spec n 1); [reflexivity|lia].
Qed.

Lemma factorial_step (n : Z) :
  is_int n -> 1 < n -> factorial n = wrap_int (n * factorial (n - 1)).
Proof.
  intros Hn Hgt. pose proof (factorial_returns n Hn) as Hret.
  assert (Hpred : is_int (n - 1))
    by (unfold is_int, int_min, int_max in *; lia).
  rewrite (factorial_calls_step n Hgt) in Hret. simpl in Hret.
  destruct (Z.leb_spec n 1); [lia|].
  rewrite (wrap_int_id _ Hpred), (factorial_returns _ Hpred) in Hret.
  congruence.
Qed.

(** Wrapping forgets multiples of [2^32], and nothing else. *)
Lemma wrap_int_shift (a j : Z) : wrap_int (a + j * 2 ^ 32) = wrap_int a.
Proof.
  unfold wrap_int.
  replace (a + j * 2 ^ 32 + 2 ^ 31) with (a + 2 ^ 31 + j * 2 ^ 32) by lia.
  by rewrite Z_mod_plus_full.
Qed.

Lemma wrap_int_offset (a : Z) : exists j, wrap_int a = a + j * 2 ^ 32.
Proof.
  exists (- ((a + 2 ^ 31) / 2 ^ 32)). unfold wrap_int.
  pose proof (Z.div_mod (a + 2 ^ 31) (2 ^ 32)). lia.
Qed.

Lemma wrap_int_mul (n m : Z) : wrap_int (n * wrap_int m) = wrap_int (n * m).
Proof.
  destruct (wrap_int_offset m) as [j ->].
  replace (n * (m + j * 2 ^ 32)) with (n * m + (n * j) * 2 ^ 32) by lia.
  apply wrap_int_shift.
Qed.

Lemma wrap_int_multiple (j : Z) : wrap_int (j * 2 ^ 32) = 0.
Proof.
  replace (j * 2 ^ 32) with (0 + j * 2 ^ 32) by lia.
  rewrite wrap_int_shift. reflexivity.
Qed.

Lemma factorial_of_nat (k : nat) :
  is_int (Z.of_nat k) -> factorial (Z.of_nat k) = wrap_int (product_to k).
Proof.
  induction k as [|k IH]; intros Hk; [reflexivity|].
  destruct k as [|k]; [reflexivity|].
  assert (Hpred : is_int (Z.of_nat (S k)))
    by (unfold is_int, int_min, int_max in *; lia).
  rewrite factorial_step by (try exact Hk; lia).
  replace (Z.of_nat (S (S k)) - 1) with (Z.of_nat (S k)) by lia.
  rewrite (IH Hpred), wrap_int_mul. reflexivity.
Qed.

Lemma factorial_wrapped (n : Z) :
  is_int n -> factorial n = wrap_int (product_to (Z.to_nat n)).
Proof.
  intros Hn. destruct (Z.le_gt_cases n 0) as [Hle|Hgt].
  - rewrite factorial_base by lia.
    replace (Z.to_nat n) with 0%nat by lia. reflexivity.
  - rewrite <- (Z2Nat.id n) at 1 by lia. apply factorial_of_nat.
    rewrite Z2Nat.id by lia. exact Hn.
Qed.

Lemma product_to_grows (k : nat) :
  (13 <= k)%nat -> int_max < product_to k.
Proof.
  induction 1 as [|k Hle IH]; [vm_compute; reflexivity|].
  change (product_to (S k)) with (Z.of_nat (S k) * product_to k).
  unfold int_max in *. nia.
Qed.

Lemma product_to_multiple (k : nat) :
  (34 <= k)%nat -> exists j, product_to k = j * 2 ^ 32.
Proof.
  induction 1 as [|k Hle [j Hj]].
  - exists 68739242628124575327993046875. vm_compute. reflexivity.
  - exists (Z.of_nat (S k) * j).
    change (product_to (S k)) with (Z.of_nat (S k) * product_to k).
    rewrite Hj. lia.
Qed.

(** X1. For every [int] [n], [factorial(n)] is the product [1 * 2 * ... * n]
    (1 when [n <= 0]) brought into the range of [int] by wrap-around. *)
Theorem factorial_is_wrapped_product (n : Z) :
  is_int n -> factorial n = wrap_int (product_to (Z.to_nat n)).
Proof. exact (factorial_wrapped n). Qed.

Lemma factorial_is_wrapped_product_at_13 :
  is_int 13 /\ factorial 13 = wrap_int (product_to (Z.to_nat 13)).
Proof.
  assert (H : is_int 13) by (unfold is_int, int_min, int_max; lia).
  split; [exact H | exact (factorial_is_wrapped_product 13 H)].
Defined.

(** X2. [factorial(n)] is the true product exactly for [n <= 12]: from 13
    on the product no longer fits an [int]. *)
Theorem factorial_exact_iff_at_most_12 (n : Z) :
  is_int n -> (factorial n = product_to (Z.to_nat n) <-> n <= 12).
Proof.
  intros Hn. rewrite (factorial_wrapped n Hn). split.
  - intros Heq. destruct (Z.le_gt_cases n 12) as [Hle|Hgt]; [exact Hle|].
    pose proof (product_to_grows (Z.to_nat n)) as Hbig.
    pose proof (wrap_int_is_int (product_to (Z.to_nat n))) as Hw.
    rewrite Heq in Hw. unfold is_int in Hw. lia.
  - intros Hle. apply wrap_int_id.
    assert (Hk : (Z.to_nat n <= 12)%nat) by lia.
    assert (Hall : forallb (fun k => (int_min <=? product_to k)
                                     && (product_to k <=? int_max))
                           (seq 0 13) = true) by (vm_compute; reflexivity).
    rewrite forallb_forall in Hall.
    specialize (Hall (Z.to_nat n)).
    rewrite andb_true_iff, Z.leb_le, Z.leb_le in Hall.
    apply Hall. apply in_seq. lia.
Qed.

Lemma factorial_exact_iff_at_most_12_at_12 :
  is_int 12 /\ (factorial 12 = product_to (Z.to_nat 12) <-> 12 <= 12).
Proof.
  assert (H : is_int 12) by (unfold is_int, int_min, int_max; lia).
  split; [exact H | exact (factorial_exact_iff_at_most_12 12 H)].
Defined.

(** X3. [factorial(n)] is 0 exactly for [n >= 34]: the product then holds
    the factor [2^32], and no smaller product does. *)
Theorem factorial_zero_iff_at_least_34 (n : Z) :
  is_int n -> (factorial n = 0 <-> 34 <= n).
Proof.
  intros Hn. rewrite (factorial_wrapped n Hn). split.
  - intros Hzero. destruct (Z.le_gt_cases 34 n) as [Hle|Hgt]; [exact Hle|].
    assert (Hall : forallb (fun k => negb (wrap_int (product_to k) =? 0))
                           (seq 0 34) = true) by (vm_compute; reflexivity).
    rewrite forallb_forall in Hall.
    assert (Hin : In (Z.to_nat n) (seq 0 34)) by (apply in_seq; lia).
    apply Hall in Hin. rewrite Hzero in Hin. discriminate Hin.
  - intros Hle. destruct (product_to_multiple (Z.to_nat n)) as [j ->]; [lia|].
    apply wrap_int_multiple.
Qed.

Lemma factorial_zero_iff_at_least_34_at_34 :
  is_int 34 /\ (factorial 34 = 0 <-> 34 <= 34).
Proof.
  assert (H : is_int 34) by (unfold is_int, int_min, int_max; lia).
  split; [exact H | exact (factorial_zero_iff_at_least_34 34 H)].
Defined.

(** [Calculator]: [getValue] returns what the last [computeFactorial]
    stored, 0 before any. *)
Lemma Calculator_value (this : Calculator) (n : Z) :
  getValue Calculator_ctor = 0
  /\ getValue (computeFactorial this n) = factorial n.
Proof. split; reflexivity. Qed.

End FactorialValues.

(** ** templates.cpp: [max] and the elements of [Array] *)
Section TemplatesBehaviour.
Import Cpp Templates.
Local Open Scope Z_scope.

(** *** [max] *)

Lemma max_bounds {T : Type} (gt : T -> T -> bool) (a b : T) :
  (forall x, gt x x = false) ->
  (forall x y, gt x y = true -> gt y x = false) ->
  (max gt a b = a \/ max gt a b = b)
  /\ gt a (max gt a b) = false
  /\ gt b (max gt a b) = false
  /\ (gt a b = false -> max gt a b = b).
Proof.
  intros Hirr Hasym. unfold max. destruct (gt a b) eqn:Hab.
  - split; [by left|]. split; [apply Hirr|]. split; [by apply Hasym|discriminate].
  - split; [by right|]. split; [exact Hab|]. split; [apply Hirr|reflexivity].
Qed.

Lemma Z_gtb_irreflexive (x : Z) : (x >? x) = false.
Proof. rewrite Z.gtb_ltb. apply Z.ltb_irrefl. Qed.

Lemma Z_gtb_asymmetric (x y : Z) : (x >? y) = true -> (y >? x) = false.
Proof. rewrite !Z.gtb_ltb, Z.ltb_lt, Z.ltb_ge. lia. Qed.

(** On integers [max] is the greater of the two. *)
Lemma max_Z (a b : Z) : max Z.gtb a b = Z.max a b.
Proof.
  unfold max. rewrite Z.gtb_ltb. destruct (Z.ltb_spec b a); lia.
Qed.

(** *** The primary template *)

Context {T : Type}.
Variable T_default : T.
Variable Size : Z.

Implicit Types (this : @Array.Array T).

Lemma store_repeat_next (i : nat) (x : T) (rest : list T) :
  <[i := T_default]> (repeat T_default i ++ x :: rest)
  = repeat T_default (S i) ++ rest.
Proof.
  rewrite insert_app_r_alt by (rewrite repeat_length; lia).
  rewrite repeat_length, Nat.sub_diag. simpl.
  rewrite app_comm_cons, repeat_cons, <- app_assoc. reflexivity.
Qed.

(** From slot [i] on, the loop fills every slot that is left. *)
Lemma Array_ctor_loop_fills (fuel : nat) :
  forall (i : nat) (rest : list T),
    Z.of_nat i + Z.of_nat (List.length rest) = Size -> Size <= int_max ->
    (List.length rest <= fuel)%nat ->
    Array.Array_ctor_loop T_default Size fuel (Z.of_nat i)
      {| Array.data := repeat T_default i ++ rest |}
    = Some {| Array.data := repeat T_default (Z.to_nat Size) |}.
Proof.
  induction fuel as [|fuel IH]; intros i rest Hsize Hmax Hfuel.
  - destruct rest; [|simpl in Hfuel; lia]. simpl in *.
    destruct (Z.ltb_spec (Z.of_nat i) Size); [lia|].
    rewrite app_nil_r. do 3 f_equal. lia.
  - simpl. destruct (Z.ltb_spec (Z.of_nat i) Size) as [Hlt|Hge].
    + destruct rest as [|x rest]; [simpl in Hsize; lia|].
      rewrite wrap_int_id by (unfold is_int, int_min, int_max in *; lia).
      unfold Array.store. simpl. rewrite Nat2Z.id, store_repeat_next.
      replace (Z.of_nat i + 1) with (Z.of_nat (S i)) by lia.
      apply IH; simpl in *; lia.
    + destruct rest; [|simpl in Hsize; lia].
      rewrite app_nil_r. do 3 f_equal. simpl in Hsize. lia.
Qed.

Lemma Array_construct_initializes (storage : list T) (fuel : nat) :
  0 <= Size <= int_max ->
  List.length storage = Z.to_nat Size ->
  (Z.to_nat Size <= fuel)%nat ->
  Array.Array_construct T_default Size fuel storage
  = Some (Array.Array_ctor T_default Size).
Proof.
  intros HSize Hlen Hfuel. unfold Array.Array_construct, Array.Array_ctor.
  apply (Array_ctor_loop_fills fuel 0 storage); lia.
Qed.

Lemma in_bounds_subscript this (index : Z) :
  0 <= index < Size ->
  Array.operator_subscript Size this index = (Returned (Z.to_nat index), this).
Proof.
  intros H. unfold Array.operator_subscript.
  destruct (Z.ltb_spec index 0); [lia|].
  rewrite Z.geb_leb. destruct (Z.leb_spec Size index); [lia|]. reflexivity.
Qed.

Lemma lookup_repeat (n : nat) :
  forall i : nat, (i < n)%nat -> repeat T_default n !! i = Some T_default.
Proof.
  induction n as [|n IH]; intros i Hi; [lia|].
  destruct i as [|i]; [reflexivity|]. simpl. apply IH. lia.
Qed.

Lemma Array_ctor_reads_default (index : Z) :
  0 <= index < Size ->
  Array.read Size (Array.Array_ctor T_default Size) index
  = Returned (Some T_default).
Proof.
  intros H. unfold Array.read. rewrite in_bounds_subscript by exact H.
  unfold Array.load, Array.Array_ctor. simpl. f_equal.
  apply lookup_repeat. lia.
Qed.

Lemma Array_assign_read this (i j : Z) (v : T) :
  Array.well_formed Size this -> 0 <= i < Size -> 0 <= j < Size ->
  fst (Array.assign Size this i v) = Returned tt
  /\ Array.well_formed Size (snd (Array.assign Size this i v))
  /\ Array.read Size (snd (Array.assign Size this i v)) j
     = if i =? j then Returned (Some v) else Array.read Size this j.
Proof.
  intros Hwf Hi Hj. unfold Array.well_formed in *.
  unfold Array.assign, Array.read. rewrite !in_bounds_subscript by assumption.
  unfold Array.load, Array.store. simpl.
  split; [reflexivity|]. split; [by rewrite length_insert|].
  destruct (Z.eqb_spec i j) as [->|Hne].
  - rewrite list_lookup_insert_eq by lia. reflexivity.
  - rewrite list_lookup_insert_ne by lia. reflexivity.
Qed.

End TemplatesBehaviour.

(** X4. [max(a, b)] returns one of its two arguments, neither argument is
    greater than it, and it returns [b] whenever [a > b] is false, for
    every [operator>] that is irreflexive and asymmetric. *)
Theorem max_returns_an_upper_bound (T : Type) (gt : T -> T -> bool) (a b : T) :
  (forall x, gt x x = false) ->
  (forall x y, gt x y = true -> gt y x = false) ->
  (Templates.max gt a b = a \/ Templates.max gt a b = b)
  /\ gt a (Templates.max gt a b) = false
  /\ gt b (Templates.max gt a b) = false
  /\ (gt a b = false -> Templates.max gt a b = b).
Proof. exact (max_bounds gt a b). Qed.

(** The theorem on [int], at [max(10, 20)] of line 80. *)
Lemma max_returns_an_upper_bound_at_10_20 :
  (forall x : Z, (x >? x)%Z = false)
  /\ (forall x y : Z, (x >? y)%Z = true -> (y >? x)%Z = false)
  /\ (Templates.max Z.gtb 10%Z 20%Z = 10%Z \/ Templates.max Z.gtb 10%Z 20%Z = 20%Z)
  /\ (10 >? Templates.max Z.gtb 10%Z 20%Z)%Z = false
  /\ (20 >? Templates.max Z.gtb 10%Z 20%Z)%Z = false
  /\ ((10 >? 20)%Z = false -> Templates.max Z.gtb 10%Z 20%Z = 20%Z).
Proof.
  split; [exact Z_gtb_irreflexive|]. split; [exact Z_gtb_asymmetric|].
  exact (max_returns_an_upper_bound Z Z.gtb 10%Z 20%Z
           Z_gtb_irreflexive Z_gtb_asymmetric).
Defined.

(** X5. The constructor of [Array<T, Size>] ends within [Size] iterations
    of its loop and leaves [T()] in every slot, whatever the storage held
    before: every index within bounds then reads [T()]. *)
Theorem Array_constructor_fills_every_slot (T : Type) (T_default : T)
    (Size : Z) (storage : list T) (fuel : nat) :
  (0 <= Size <= Cpp.int_max)%Z ->
  List.length storage = Z.to_nat Size ->
  (Z.to_nat Size <= fuel)%nat ->
  Templates.Array.Array_construct T_default Size fuel storage
  = Some (Templates.Array.Array_ctor T_default Size)
  /\ Templates.Array.well_formed Size (Templates.Array.Array_ctor T_default Size)
  /\ forall index : Z,
      (0 <= index < Size)%Z ->
      Templates.Array.read Size (Templates.Array.Array_ctor T_default Size) index
      = Cpp.Returned (Some T_default).
Proof.
  intros HSize Hlen Hfuel.
  split; [by apply Array_construct_initializes|].
  split; [unfold Templates.Array.well_formed; simpl; apply repeat_length|].
  intros index Hindex. by apply Array_ctor_reads_default.
Qed.

(** The theorem on the [Array<int, 5>] of line 85, built over storage that
    held other values. *)
Lemma Array_constructor_fills_every_slot_at_5 :
  (0 <= 5 <= Cpp.int_max)%Z
  /\ List.length [7; 7; 7; 7; 7]%Z = Z.to_nat 5
  /\ (Z.to_nat 5 <= 5)%nat
  /\ Templates.Array.Array_construct 0%Z 5 5 [7; 7; 7; 7; 7]%Z
     = Some (Templates.Array.Array_ctor 0%Z 5)
  /\ Templates.Array.well_formed 5 (Templates.Array.Array_ctor 0%Z 5)
  /\ forall index : Z,
      (0 <= index < 5)%Z ->
      Templates.Array.read 5 (Templates.Array.Array_ctor 0%Z 5) index
      = Cpp.Returned (Some 0%Z).
Proof.
  assert (H1 : (0 <= 5 <= Cpp.int_max)%Z) by (unfold Cpp.int_max; lia).
  assert (H2 : List.length [7; 7; 7; 7; 7]%Z = Z.to_nat 5) by reflexivity.
  assert (H3 : (Z.to_nat 5 <= 5)%nat) by (vm_compute; lia).
  split; [exact H1|]. split; [exact H2|]. split; [exact H3|].
  exact (Array_constructor_fills_every_slot Z 0%Z 5 [7; 7; 7; 7; 7]%Z 5 H1 H2 H3).
Defined.

(** X6. On an [Array<T, Size>] with its [Size] slots, [a[i] = v] within
    bounds does not throw and keeps the slots; afterwards [a[i]] reads [v]
    and every other index within bounds reads what it read before. *)
Theorem Array_read_after_write (T : Type) (Size : Z)
    (this : @Templates.Array.Array T) (i j : Z) (v : T) :
  Templates.Array.well_formed Size this ->
  (0 <= i < Size)%Z -> (0 <= j < Size)%Z ->
  fst (Templates.Array.assign Size this i v) = Cpp.Returned tt
  /\ Templates.Array.well_formed Size (snd (Templates.Array.assign Size this i v))
  /\ Templates.Array.read Size (snd (Templates.Array.assign Size this i v)) j
     = if (i =? j)%Z then Cpp.Returned (Some v)
       else Templates.Array.read Size this j.
Proof. exact (Array_assign_read Size this i j v). Qed.

(** The theorem on [intArray[0] = 10] of line 86, read back at index 0. *)
Lemma Array_read_after_write_at_0 :
  Templates.Array.well_formed 5 (Templates.Array.Array_ctor 0%Z 5)
  /\ (0 <= 0 < 5)%Z
  /\ fst (Templates.Array.assign 5 (Templates.Array.Array_ctor 0%Z 5) 0 10%Z)
     = Cpp.Returned tt
  /\ Templates.Array.well_formed 5
       (snd (Templates.Array.assign 5 (Templates.Array.Array_ctor 0%Z 5) 0 10%Z))
  /\ Templates.Array.read 5
       (snd (Templates.Array.assign 5 (Templates.Array.Array_ctor 0%Z 5) 0 10%Z)) 0
     = if (0 =? 0)%Z then Cpp.Returned (Some 10%Z)
       else Templates.Array.read 5 (Templates.Array.Array_ctor 0%Z 5) 0.
Proof.
  assert (H1 : Templates.Array.well_formed 5 (Templates.Array.Array_ctor 0%Z 5))
    by reflexivity.
  assert (H2 : (0 <= 0 < 5)%Z) by lia.
  split; [exact H1|]. split; [exact H2|].
  exact (Array_read_after_write Z 5 (Templates.Array.Array_ctor 0%Z 5) 0 0 10%Z
           H1 H2 H2).
Defined.

(** X7. On an [Array<bool, 8>], [a.set(i, v)] within bounds makes [a[i]]
    return [v] and leaves what [a[j]] returns for every other index
    within bounds. *)
Theorem Array_bool_8_read_after_write (this : Templates.Array_bool_8.Array)
    (index : Z) (value : bool) (j : Z) :
  (0 <= index < 8)%Z -> (0 <= j < 8)%Z ->
  fst (Templates.Array_bool_8.operator_subscript
         (snd (Templates.Array_bool_8.set this index value)) j)
  = if (j =? index)%Z then Cpp.Returned value
    else fst (Templates.Array_bool_8.operator_subscript this j).
Proof. exact (Array_bool_8_set_then_subscript this index value j). Qed.

(** The theorem on [boolArray.set(3, true)] of line 95, read back at 3. *)
Lemma Array_bool_8_read_after_write_at_3 :
  (0 <= 3 < 8)%Z
  /\ fst (Templates.Array_bool_8.operator_subscript
            (snd (Templates.Array_bool_8.set Templates.Array_bool_8.Array_ctor 3 true)) 3)
     = if (3 =? 3)%Z then Cpp.Returned true
       else fst (Templates.Array_bool_8.operator_subscript
                   Templates.Array_bool_8.Array_ctor 3).
Proof.
  assert (H : (0 <= 3 < 8)%Z) by lia.
  split; [exact H|].
  exact (Array_bool_8_read_after_write Templates.Array_bool_8.Array_ctor 3 true 3 H H).
Defined.

(** ** data_structures.cpp: the sequence a [LinkedList] holds *)
Section LinkedListSequence.
Import Cpp DataStructures.
Local Open Scope Z_scope.

Context {T : Type}.
Implicit Types (h : gmap Z (Node T)) (p : pointer) (ls : list Z) (xs : list T).
Implicit Types (this : LinkedList T).

(** *** Values along the chain *)

Lemma elements_nodes h p xs :
  elements h p xs ->
  exists ls, nodes h p ls /\ List.length ls = List.length xs.
Proof.
  induction 1 as [|a n xs Ha _ [ls [Hls Hlen]]].
  - exists []. split; [constructor|reflexivity].
  - exists (a :: ls). split; [by econstructor|]. simpl. by rewrite Hlen.
Qed.

(** The values only depend on the nodes of the chain. *)
Lemma elements_ext h h' p xs :
  elements h p xs ->
  forall ls, nodes h p ls -> (forall a, a ∈ ls -> h' !! a = h !! a) ->
             elements h' p xs.
Proof.
  induction 1 as [|a n xs Ha _ IH]; intros ls Hls Hsame; [constructor|].
  inversion Hls as [|a' n' ls' Ha' Hrest]; subst.
  assert (n' = n) as -> by congruence.
  econstructor.
  - rewrite Hsame; [exact Ha | by left].
  - apply (IH ls' Hrest). intros b Hb. apply Hsame. by right.
Qed.

Lemma represents_invariant this xs : represents this xs -> invariant this.
Proof.
  intros [Hok [Hxs Hsize]]. split; [exact Hok|].
  destruct (elements_nodes _ _ _ Hxs) as [ls [Hls Hlen]].
  exists ls. split; [exact Hls|]. by rewrite Hlen.
Qed.

(** An invariant list that holds [xs] represents [xs]. *)
Lemma invariant_represents this xs :
  invariant this -> elements (heap this) (head this) xs -> represents this xs.
Proof.
  intros [Hok [ls [Hls Hsize]]] Hxs. split; [exact Hok|]. split; [exact Hxs|].
  destruct (elements_nodes _ _ _ Hxs) as [ls' [Hls' Hlen]].
  rewrite (nodes_det _ _ _ Hls _ Hls') in Hsize. by rewrite Hsize, Hlen.
Qed.

Lemma represents_ctor : represents (@LinkedList_ctor T) [].
Proof.
  apply invariant_represents; [apply invariant_ctor | constructor].
Qed.

(** Linking a node behind the last one appends its value. *)
Lemma elements_link_last h ls :
  forall hd lst a m xs,
    nodes h (Some hd) ls -> elements h (Some hd) xs -> last ls = Some lst ->
    h !! a = Some m -> next m = None -> a ∉ ls ->
    elements (set_next lst (Some a) h) (Some hd) (xs ++ [data m]).
Proof.
  induction ls as [|b ls IH]; intros hd lst a m xs H Hxs Hlast Ha Hm Hnotin;
    inversion H as [|b' n ls' Hb Hrest]; subst.
  inversion Hxs as [|b' n' xs' Hb' Hxs']; subst.
  assert (n' = n) as -> by congruence.
  assert (Hab : a <> b) by (intros ->; apply Hnotin; by left).
  pose proof (nodes_NoDup _ _ _ H) as Hnd. apply NoDup_cons in Hnd as [Hfirst _].
  destruct ls as [|c ls].
  - injection Hlast as <-. inversion Hrest as [Hnull|]; subst.
    rewrite <- Hnull in Hxs'. inversion Hxs'; subst. simpl.
    change (data n) with (data {| data := data n; next := Some a |}).
    econstructor; [by apply lookup_set_next_eq|]. simpl.
    econstructor.
    + rewrite lookup_set_next_ne by congruence. exact Ha.
    + rewrite Hm. constructor.
  - rewrite last_cons_cons in Hlast.
    assert (Hne : lst <> b).
    { intros ->. apply Hfirst. by apply last_Some_elem_of. }
    simpl. econstructor.
    + rewrite lookup_set_next_ne by exact Hne. exact Hb.
    + inversion Hrest as [|c' k ls' Hc Hrest' Hnext]; subst.
      rewrite <- Hnext in Hxs'. rewrite <- Hnext in Hrest.
      eapply (IH c lst a m); try eassumption.
      intros Hin. apply Hnotin. by right.
Qed.

(** *** The operations on the sequence *)

Lemma represents_push_front this xs (value : T) (a : Z) :
  represents this xs -> heap this !! a = None -> valid_addr a ->
  represents (push_front value a this) (value :: xs).
Proof.
  intros Hrep Hfresh Ha. pose proof (represents_invariant _ _ Hrep) as Hinv.
  apply invariant_represents; [by apply invariant_push_front|].
  destruct Hrep as [_ [Hxs _]].
  destruct (elements_nodes _ _ _ Hxs) as [ls [Hls _]].
  assert (Hnotin : a ∉ ls).
  { intros Hin. apply (nodes_allocated _ _ _ Hls) in Hin as [n Hn]. congruence. }
  assert (Hnew : heap (push_front value a this) !! a
                 = Some {| data := value; next := head this |}).
  { simpl. rewrite (lookup_set_next_eq _ _ _ {| data := value; next := None |});
      [reflexivity | apply lookup_insert_eq]. }
  apply (elements_step _ a {| data := value; next := head this |} xs Hnew).
  simpl. apply (elements_ext (heap this) _ _ _ Hxs ls Hls).
  intros b Hb. assert (a <> b) by (intros ->; contradiction).
  rewrite lookup_set_next_ne by assumption.
  unfold make_shared. by rewrite lookup_insert_ne.
Qed.

Lemma represents_push_back this xs (value : T) (a : Z) (fuel : nat) :
  represents this xs -> heap this !! a = None -> valid_addr a ->
  (List.length xs <= fuel)%nat ->
  exists this', push_back fuel value a this = Some this'
                /\ represents this' (xs ++ [value]).
Proof.
  intros Hrep Hfresh Ha Hfuel.
  pose proof (represents_invariant _ _ Hrep) as Hinv.
  destruct Hrep as [_ [Hxs Hsize]].
  destruct (invariant_push_back this value a fuel Hinv Hfresh Ha)
    as [this' [Hpush Hinv']]; [rewrite Hsize; lia|].
  exists this'. split; [exact Hpush|].
  apply invariant_represents; [exact Hinv'|].
  destruct (elements_nodes _ _ _ Hxs) as [ls [Hls Hlen]].
  assert (Hnotin : a ∉ ls).
  { intros Hin. apply (nodes_allocated _ _ _ Hls) in Hin as [n Hn]. congruence. }
  set (h1 := make_shared a value (heap this)) in *.
  assert (Hh1a : h1 !! a = Some {| data := value; next := None |})
    by apply lookup_insert_eq.
  assert (Hsame : forall b, b ∈ ls -> h1 !! b = heap this !! b).
  { intros b Hb. unfold h1, make_shared. rewrite lookup_insert_ne; [reflexivity|].
    intros ->. contradiction. }
  assert (Hls1 : nodes h1 (head this) ls) by (by apply (nodes_ext (heap this))).
  assert (Hxs1 : elements h1 (head this) xs)
    by (by apply (elements_ext (heap this) _ _ _ Hxs ls Hls)).
  unfold push_back in Hpush. fold h1 in Hpush.
  destruct (head this) as [hd|] eqn:Hhead.
  - destruct (last_node_nodes h1 ls hd fuel Hls1)
      as [lst [n [Hlast [Hloop _]]]]; [lia|].
    rewrite Hloop in Hpush. injection Hpush as <-. simpl.
    change value with (data {| data := value; next := None |}).
    eapply elements_link_last; eauto.
  - injection Hpush as <-. simpl. inversion Hxs; subst. simpl.
    change value with (data {| data := value; next := None |}).
    econstructor; [exact Hh1a|]. constructor.
Qed.

Lemma represents_pop_front this (x : T) xs :
  represents this (x :: xs) ->
  exists this', pop_front this = Some this' /\ represents this' xs.
Proof.
  intros Hrep. pose proof (represents_invariant _ _ Hrep) as Hinv.
  destruct (invariant_pop_front this Hinv) as [this' [Hpop Hinv']].
  exists this'. split; [exact Hpop|].
  apply invariant_represents; [exact Hinv'|].
  destruct Hrep as [_ [Hxs _]]. unfold pop_front in Hpop.
  inversion Hxs as [|a n xs' Ha Hxs' Hhead]; subst.
  rewrite <- Hhead, Ha in Hpop. injection Hpop as <-. simpl.
  destruct (elements_nodes _ _ _ Hxs') as [ls [Hls _]].
  assert (Hnd : NoDup (a :: ls))
    by (apply (nodes_NoDup (heap this) (Some a)); by econstructor).
  apply NoDup_cons in Hnd as [Hnotin _].
  apply (elements_ext (heap this) _ _ _ Hxs' ls Hls).
  intros b Hb. rewrite lookup_delete_ne; [reflexivity|]. intros ->. contradiction.
Qed.

Lemma represents_pop_front_empty this :
  represents this [] -> pop_front this = Some this.
Proof.
  intros [_ [Hxs _]]. inversion Hxs as [Hhead|]. apply pop_front_empty. by rewrite <- Hhead.
Qed.

Lemma represents_get_size this xs :
  represents this xs -> get_size this = Z.of_nat (List.length xs).
Proof. by intros [_ [_ Hsize]]. Qed.

(** *** [pop_front] after [push_front] *)

Lemma pop_front_push_front this (value : T) (a : Z) :
  heap this !! a = None -> 0 <= size this < size_modulus ->
  pop_front (push_front value a this) = Some this.
Proof.
  intros Hfresh Hsize. unfold pop_front, push_front. simpl.
  rewrite (lookup_set_next_eq _ a (head this) {| data := value; next := None |})
    by apply lookup_insert_eq.
  simpl. destruct this as [h hd sz]. simpl in *. do 2 f_equal.
  - unfold set_next, make_shared. apply map_eq. intros b.
    destruct (decide (a = b)) as [<-|Hne].
    + by rewrite lookup_delete_eq.
    + by rewrite lookup_delete_ne, lookup_alter_ne, lookup_insert_ne.
  - unfold wrap_size, size_modulus in *.
    destruct (Z.eq_dec sz (2 ^ 64 - 1)) as [->|Hne]; [reflexivity|].
    rewrite (Z.mod_small (sz + 1)) by lia.
    rewrite Z.mod_small by lia. lia.
Qed.

(** *** [print] *)

Lemma print_loop_elements h p xs :
  elements h p xs ->
  forall fuel, (List.length xs <= fuel)%nat ->
    print_loop fuel h p
    = Some (flat_map (fun x => [OutData x; OutText " -> "]) xs).
Proof.
  induction 1 as [|a n xs Ha _ IH]; intros fuel Hfuel.
  - by destruct fuel.
  - destruct fuel as [|fuel]; simpl in *; [lia|].
    rewrite Ha, IH by lia. reflexivity.
Qed.

Lemma print_loop_short h p xs :
  elements h p xs ->
  forall fuel, (fuel < List.length xs)%nat -> print_loop fuel h p = None.
Proof.
  induction 1 as [|a n xs Ha _ IH]; intros fuel Hfuel; simpl in *; [lia|].
  destruct fuel as [|fuel]; simpl; [reflexivity|].
  rewrite Ha, IH by lia. reflexivity.
Qed.

Lemma print_represents this xs (fuel : nat) :
  represents this xs ->
  ((List.length xs <= fuel)%nat -> print fuel this = Some (printed xs))
  /\ ((fuel < List.length xs)%nat -> print fuel this = None).
Proof.
  intros [_ [Hxs _]]. unfold print, printed. split; intros Hfuel.
  - by rewrite (print_loop_elements _ _ _ Hxs fuel Hfuel).
  - by rewrite (print_loop_short _ _ _ Hxs fuel Hfuel).
Qed.

(** *** Ownership *)







End LinkedListSequence.

(** X8. [push_front(value)] on a list that holds [xs] gives a list that
    holds [value] followed by [xs], with [get_size()] one more, the new
    node being allocated at a free valid address. *)
Theorem LinkedList_push_front_prepends (T : Type)
    (this : DataStructures.LinkedList T) (xs : list T) (value : T) (a : Z) :
  DataStructures.represents this xs ->
  DataStructures.heap this !! a = None -> DataStructures.valid_addr a ->
  DataStructures.represents (DataStructures.push_front value a this) (value :: xs)
  /\ DataStructures.get_size (DataStructures.push_front value a this)
     = Z.of_nat (S (List.length xs)).
Proof.
  intros Hrep Hfresh Ha.
  pose proof (represents_push_front this xs value a Hrep Hfresh Ha) as Hrep'.
  split; [exact Hrep' | exact (represents_get_size _ _ Hrep')].
Qed.

Lemma LinkedList_push_front_prepends_on_empty :
  DataStructures.represents (@DataStructures.LinkedList_ctor nat) []
  /\ DataStructures.heap (@DataStructures.LinkedList_ctor nat) !! 1%Z = None
  /\ DataStructures.valid_addr 1
  /\ DataStructures.represents
       (DataStructures.push_front 10%nat 1 DataStructures.LinkedList_ctor) [10%nat]
  /\ DataStructures.get_size
       (DataStructures.push_front 10%nat 1 DataStructures.LinkedList_ctor)
     = Z.of_nat 1.
Proof.
  assert (H1 : DataStructures.represents (@DataStructures.LinkedList_ctor nat) [])
    by exact represents_ctor.
  assert (H2 : DataStructures.heap (@DataStructures.LinkedList_ctor nat) !! 1%Z = None)
    by reflexivity.
  assert (H3 : DataStructures.valid_addr 1)
    by (unfold DataStructures.valid_addr, Cpp.size_modulus; lia).
  split; [exact H1|]. split; [exact H2|]. split; [exact H3|].
  exact (LinkedList_push_front_prepends nat _ [] 10%nat 1%Z H1 H2 H3).
Defined.

(** X9. [push_back(value)] on a list that holds [xs] returns, its loop
    ending within as many iterations as [xs] has values, and gives a list
    that holds [xs] followed by [value], with [get_size()] one more. *)
Theorem LinkedList_push_back_appends (T : Type)
    (this : DataStructures.LinkedList T) (xs : list T) (value : T) (a : Z)
    (fuel : nat) :
  DataStructures.represents this xs ->
  DataStructures.heap this !! a = None -> DataStructures.valid_addr a ->
  (List.length xs <= fuel)%nat ->
  exists this',
    DataStructures.push_back fuel value a this = Some this'
    /\ DataStructures.represents this' (xs ++ [value])
    /\ DataStructures.get_size this' = Z.of_nat (S (List.length xs)).
Proof.
  intros Hrep Hfresh Ha Hfuel.
  destruct (represents_push_back this xs value a fuel Hrep Hfresh Ha Hfuel)
    as [this' [Hpush Hrep']].
  exists this'. split; [exact Hpush|]. split; [exact Hrep'|].
  rewrite (represents_get_size _ _ Hrep'), length_app. simpl. f_equal. lia.
Qed.

Lemma LinkedList_push_back_appends_after_one :
  DataStructures.represents
    (DataStructures.push_front 10%nat 1 DataStructures.LinkedList_ctor) [10%nat]
  /\ exists this',
      DataStructures.push_back 1 20%nat 2
        (DataStructures.push_front 10%nat 1 DataStructures.LinkedList_ctor)
      = Some this'
      /\ DataStructures.represents this' ([10%nat] ++ [20%nat])
      /\ DataStructures.get_size this' = Z.of_nat 2.
Proof.
  assert (Hvalid : forall a : Z, (0 < a < 3)%Z -> DataStructures.valid_addr a)
    by (unfold DataStructures.valid_addr, Cpp.size_modulus; lia).
  assert (H1 : DataStructures.represents
                 (DataStructures.push_front 10%nat 1 DataStructures.LinkedList_ctor)
                 [10%nat]).
  { apply represents_push_front;
      [exact represents_ctor | reflexivity | apply Hvalid; lia]. }
  split; [exact H1|].
  apply (LinkedList_push_back_appends nat _ [10%nat] 20%nat 2%Z 1 H1);
    [reflexivity | apply Hvalid; lia | simpl; lia].
Defined.

(** X10. [pop_front()] on a list that holds [x] followed by [xs] gives a
    list that holds [xs], with [get_size()] one less. *)
Theorem LinkedList_pop_front_drops_first (T : Type)
    (this : DataStructures.LinkedList T) (x : T) (xs : list T) :
  DataStructures.represents this (x :: xs) ->
  exists this',
    DataStructures.pop_front this = Some this'
    /\ DataStructures.represents this' xs
    /\ DataStructures.get_size this' = (DataStructures.get_size this - 1)%Z.
Proof.
  intros Hrep.
  destruct (represents_pop_front this x xs Hrep) as [this' [Hpop Hrep']].
  exists this'. split; [exact Hpop|]. split; [exact Hrep'|].
  rewrite (represents_get_size _ _ Hrep'), (represents_get_size _ _ Hrep).
  simpl. lia.
Qed.

Lemma LinkedList_pop_front_drops_first_of_one :
  DataStructures.represents
    (DataStructures.push_front 10%nat 1 DataStructures.LinkedList_ctor) [10%nat]
  /\ exists this',
      DataStructures.pop_front
        (DataStructures.push_front 10%nat 1 DataStructures.LinkedList_ctor)
      = Some this'
      /\ DataStructures.represents this' []
      /\ DataStructures.get_size this'
         = (DataStructures.get_size
              (DataStructures.push_front 10%nat 1 DataStructures.LinkedList_ctor) - 1)%Z.
Proof.
  assert (H1 : DataStructures.represents
                 (DataStructures.push_front 10%nat 1 DataStructures.LinkedList_ctor)
                 [10%nat]).
  { apply represents_push_front; [exact represents_ctor | reflexivity|].
    unfold DataStructures.valid_addr, Cpp.size_modulus. lia. }
  split; [exact H1|].
  exact (LinkedList_pop_front_drops_first nat _ 10%nat [] H1).
Defined.

(** X11. [pop_front()] undoes [push_front(value)]: the list is as it
    was, node memory, [head] and [size] alike, whenever the new node went
    to a free address and [size] held a [size_t] value. *)
Theorem LinkedList_pop_front_undoes_push_front (T : Type)
    (this : DataStructures.LinkedList T) (value : T) (a : Z) :
  DataStructures.heap this !! a = None ->
  (0 <= DataStructures.size this < Cpp.size_modulus)%Z ->
  DataStructures.pop_front (DataStructures.push_front value a this) = Some this.
Proof. exact (pop_front_push_front this value a). Qed.

Lemma LinkedList_pop_front_undoes_push_front_on_empty :
  DataStructures.heap (@DataStructures.LinkedList_ctor nat) !! 1%Z = None
  /\ (0 <= DataStructures.size (@DataStructures.LinkedList_ctor nat)
      < Cpp.size_modulus)%Z
  /\ DataStructures.pop_front
       (DataStructures.push_front 10%nat 1 DataStructures.LinkedList_ctor)
     = Some DataStructures.LinkedList_ctor.
Proof.
  assert (H1 : DataStructures.heap (@DataStructures.LinkedList_ctor nat) !! 1%Z = None)
    by reflexivity.
  assert (H2 : (0 <= DataStructures.size (@DataStructures.LinkedList_ctor nat)
                < Cpp.size_modulus)%Z)
    by (unfold Cpp.size_modulus; simpl; lia).
  split; [exact H1|]. split; [exact H2|].
  exact (LinkedList_pop_front_undoes_push_front nat _ 10%nat 1%Z H1 H2).
Defined.

(** X12. [print()] on a list that holds [xs] writes every value of [xs]
    in order, each followed by [" -> "], then ["nullptr"] and the end of
    the line; its loop takes exactly as many iterations as [xs] has
    values. *)
Theorem LinkedList_print_writes_the_sequence (T : Type)
    (this : DataStructures.LinkedList T) (xs : list T) (fuel : nat) :
  DataStructures.represents this xs ->
  ((List.length xs <= fuel)%nat ->
   DataStructures.print fuel this = Some (DataStructures.printed xs))
  /\ ((fuel < List.length xs)%nat -> DataStructures.print fuel this = None).
Proof. exact (print_represents this xs fuel). Qed.

Lemma LinkedList_print_writes_the_sequence_of_one :
  DataStructures.represents
    (DataStructures.push_front 10%nat 1 DataStructures.LinkedList_ctor) [10%nat]
  /\ ((List.length [10%nat] <= 1)%nat ->
      DataStructures.print 1
        (DataStructures.push_front 10%nat 1 DataStructures.LinkedList_ctor)
      = Some (DataStructures.printed [10%nat]))
  /\ ((1 < List.length [10%nat])%nat ->
      DataStructures.print 1
        (DataStructures.push_front 10%nat 1 DataStructures.LinkedList_ctor)
      = None).
Proof.
  assert (H1 : DataStructures.represents
                 (DataStructures.push_front 10%nat 1 DataStructures.LinkedList_ctor)
                 [10%nat]).
  { apply represents_push_front; [exact represents_ctor | reflexivity|].
    unfold DataStructures.valid_addr, Cpp.size_modulus. lia. }
  split; [exact H1|].
  exact (LinkedList_print_writes_the_sequence nat _ [10%nat] 1 H1).
Defined.



(** ** namespaces.cpp: [square], [cube], [distance] and [area] *)
Section NamespacesArithmetic.
Import Namespaces.
Local Open Scope float_scope.

(** *** Signs in the binary64 specification *)


Lemma round_aux_plus (p em : Z) (m e : Z) (l : location) :
  plus_or_nan (binary_round_aux p em false m e l).
Proof.
  unfold binary_round_aux.
  destruct (shr_fexp p em m e l) as [mrs1 e1].
  destruct (shr_fexp p em _ e1 loc_Exact) as [mrs2 e2].
  destruct (shr_m mrs2); [reflexivity| |exact I].
  destruct (e2 <=? em - p)%Z; reflexivity.
Qed.






(** A square is the square of the absolute value, and carries no minus
    sign. *)
Lemma mul_self_abs (a : spec_float) :
  SF64mul a a = SF64mul (SFabs a) (SFabs a).
Proof. destruct a as [s|s| |s m e]; simpl; try reflexivity; by destruct s. Qed.

Lemma mul_self_plus (a : spec_float) : plus_or_nan (SF64mul a a).
Proof.
  rewrite mul_self_abs.
  destruct a as [s|s| |s m e]; simpl; try reflexivity; try exact I.
  apply round_aux_plus.
Qed.

Lemma mul_plus (a b : spec_float) :
  plus_or_nan a -> plus_or_nan b -> plus_or_nan (SF64mul a b).
Proof.
  destruct a as [sa|sa| |sa ma ea], b as [sb|sb| |sb mb eb]; simpl;
    try (intros -> ->; reflexivity); try (intros; exact I).
  intros -> ->. apply round_aux_plus.
Qed.




(** *** From the specification to the operations on [double] *)

Lemma float_eq (u v : float) : Prim2SF u = Prim2SF v -> u = v.
Proof.
  intros H. by rewrite <- (SF2Prim_Prim2SF u), <- (SF2Prim_Prim2SF v), H.
Qed.

Lemma plus_or_nan_at_least_zero (v : float) :
  plus_or_nan (Prim2SF v) -> is_nan v = true \/ at_least_zero v = true.
Proof.
  unfold is_nan, at_least_zero.
  rewrite FloatAxioms.eqb_spec, FloatAxioms.leb_spec.
  change (Prim2SF 0) with (S754_zero false).
  destruct (Prim2SF v) as [s|s| |s m e]; simpl; intros H; try subst s; auto.
Qed.

Lemma square_spec (v : float) :
  Prim2SF (square v) = SF64mul (Prim2SF v) (Prim2SF v).
Proof. unfold square. apply mul_spec. Qed.




Lemma PI_plus : Prim2SF PI = S754_finite false 7074237752028440 (-51).
Proof. vm_compute. reflexivity. Qed.

Lemma area_sign (c : Circle) :
  is_nan (area c) = true \/ at_least_zero (area c) = true.
Proof.
  apply plus_or_nan_at_least_zero. unfold area. rewrite mul_spec, square_spec.
  apply mul_plus; [by rewrite PI_plus | apply mul_self_plus].
Qed.




(** A finite [double] is a zero or a finite number of the specification. *)
Lemma is_finite_spec (v : float) :
  is_finite v = true ->
  match Prim2SF v with
  | S754_zero _ | S754_finite _ _ _ => True
  | _ => False
  end.
Proof.
  unfold is_finite, is_nan, is_infinity.
  rewrite !FloatAxioms.eqb_spec, abs_spec.
  change (Prim2SF infinity) with (S754_infinity false).
  destruct (Prim2SF v) as [s|s| |s m e]; simpl; try (intros; exact I).
  - destruct s; simpl; discriminate.
  - discriminate.
Qed.

Lemma sub_self (a : spec_float) :
  match a with S754_zero _ | S754_finite _ _ _ => True | _ => False end ->
  SF64sub a a = S754_zero false.
Proof.
  destruct a as [s|s| |s m e]; simpl; try contradiction; intros _.
  - by destruct s.
  - by rewrite Z.sub_diag.
Qed.

Lemma distance_self (p : Point) :
  is_finite (x p) = true -> is_finite (y p) = true -> distance p p = 0.
Proof.
  intros Hx Hy. apply float_eq. unfold distance.
  rewrite sqrt_spec, add_spec, !square_spec, !sub_spec.
  rewrite (sub_self _ (is_finite_spec _ Hx)), (sub_self _ (is_finite_spec _ Hy)).
  reflexivity.
Qed.

Lemma two_PI_plus : Prim2SF (2 * PI) = S754_finite false 7074237752028440 (-50).
Proof. vm_compute. reflexivity. Qed.

Lemma circumference_sign (c : Circle) :
  at_least_zero (radius c) = true ->
  is_nan (circumference c) = true \/ at_least_zero (circumference c) = true.
Proof.
  unfold circumference, is_nan, at_least_zero.
  rewrite FloatAxioms.eqb_spec, !FloatAxioms.leb_spec, mul_spec, two_PI_plus.
  change (Prim2SF 0) with (S754_zero false).
  destruct (Prim2SF (radius c)) as [s|s| |s m e]; simpl;
    try discriminate; try (destruct s; simpl; try discriminate; intros _; auto).
  pose proof (round_aux_plus prec emax
                (Z.pos (7074237752028440 * m)) (-50 + e) loc_Exact) as H.
  destruct (binary_round_aux _ _ _ _ _ _) as [s'|s'| |s' m' e']; simpl in *;
    try subst s'; auto.
Qed.

End NamespacesArithmetic.



(** X16. [Circle::area()] is never below zero, whatever the radius, a
    negative one included: it is NaN or at least 0. *)
Theorem Circle_area_is_not_negative (c : Namespaces.Circle) :
  is_nan (Namespaces.area c) = true
  \/ Namespaces.at_least_zero (Namespaces.area c) = true.
Proof. apply area_sign. Qed.


(** X18. A point with finite coordinates is at distance 0 from itself. *)
Theorem Point_distance_to_itself (p : Namespaces.Point) :
  is_finite (Namespaces.x p) = true -> is_finite (Namespaces.y p) = true ->
  Namespaces.distance p p = 0%float.
Proof. apply distance_self. Qed.

(** The theorem at the point [p1(3, 4)] of line 72. *)
Lemma Point_distance_to_itself_at_3_4 :
  is_finite (Namespaces.x (Namespaces.Point_ctor 3 4)) = true
  /\ is_finite (Namespaces.y (Namespaces.Point_ctor 3 4)) = true
  /\ Namespaces.distance (Namespaces.Point_ctor 3 4) (Namespaces.Point_ctor 3 4)
     = 0%float.
Proof.
  assert (H1 : is_finite (Namespaces.x (Namespaces.Point_ctor 3 4)) = true)
    by reflexivity.
  assert (H2 : is_finite (Namespaces.y (Namespaces.Point_ctor 3 4)) = true)
    by reflexivity.
  split; [exact H1|]. split; [exact H2|].
  exact (Point_distance_to_itself (Namespaces.Point_ctor 3 4) H1 H2).
Defined.

(** X19. [Circle::circumference()] of a circle whose radius is at least 0
    is never below zero: it is NaN or at least 0. *)
Theorem Circle_circumference_is_not_negative (c : Namespaces.Circle) :
  Namespaces.at_least_zero (Namespaces.radius c) = true ->
  is_nan (Namespaces.circumference c) = true
  \/ Namespaces.at_least_zero (Namespaces.circumference c) = true.
Proof. apply circumference_sign. Qed.

(** The theorem at the circle of line 78, of radius 5. *)
Lemma Circle_circumference_is_not_negative_at_5 :
  Namespaces.at_least_zero
    (Namespaces.radius (Namespaces.Circle_ctor (Namespaces.Point_ctor 3 4) 5)) = true
  /\ (is_nan (Namespaces.circumference
                (Namespaces.Circle_ctor (Namespaces.Point_ctor 3 4) 5)) = true
      \/ Namespaces.at_least_zero
           (Namespaces.circumference
              (Namespaces.Circle_ctor (Namespaces.Point_ctor 3 4) 5)) = true).
Proof.
  assert (H : Namespaces.at_least_zero
                (Namespaces.radius
                   (Namespaces.Circle_ctor (Namespaces.Point_ctor 3 4) 5)) = true)
    by reflexivity.
  split; [exact H|].
  exact (Circle_circumference_is_not_negative _ H).
Defined.

(** The values of [main], lines 72-80: the distance between [p1(3, 4)] and
    [p2(6, 8)] is 5, and the circle of radius 5 has the area and the
    circumference that [double] arithmetic gives. *)
Example namespaces_main_values :
  Namespaces.distance (Namespaces.Point_ctor 3 4) (Namespaces.Point_ctor 6 8)
  = 5%float
  /\ Namespaces.square 3 = 9%float
  /\ Namespaces.cube 3 = 27%float
  /\ Namespaces.area (Namespaces.Circle_ctor (Namespaces.Point_ctor 3 4) 5)
     = 0x1.3a28c59d5433bp+6%float
  /\ Namespaces.circumference (Namespaces.Circle_ctor (Namespaces.Point_ctor 3 4) 5)
     = 0x1.f6a7a2955385ep+4%float.
Proof. repeat split; vm_compute; reflexivity. Qed.
